(** * data-smith: the chainable [QueryBuilder] over in-memory arrays

    A shallow embedding of [QueryBuilder<T, K, G>] and of the host
    primitives its methods rely on (truthiness, [===], [Map],
    [Array.prototype.slice], [Array.prototype.sort], relational
    comparison), followed by the properties of its operators. *)

From Stdlib Require Import ZArith List String Floats Uint63 Bool.
From Stdlib Require Import Permutation Sorted Lia Eqdep_dec.
Import ListNotations.

(** ** The host: ECMAScript values and built-ins *)

Module Js.

(** A value of static type [any].  A number is an IEEE 754 double; an
    object is a reference, compared by identity. *)
Inductive value : Type :=
| VUndefined
| VNull
| VBool (b : bool)
| VNum (x : float)
| VStr (s : string)
| VObj (addr : nat).

(** [ToBoolean]: the test performed by [c ? a : b], [if (c)] and [||]. *)
Definition ToBoolean (v : value) : bool :=
  match v with
  | VUndefined | VNull => false
  | VBool b => b
  | VNum x => negb (PrimFloat.is_zero x || PrimFloat.is_nan x)
  | VStr s => negb (String.eqb s EmptyString)
  | VObj _ => true
  end.

(** [a === b] *)
Definition strict_eq (a b : value) : bool :=
  match a, b with
  | VUndefined, VUndefined => true
  | VNull, VNull => true
  | VBool x, VBool y => Bool.eqb x y
  | VNum x, VNum y => PrimFloat.eqb x y
  | VStr x, VStr y => String.eqb x y
  | VObj x, VObj y => Nat.eqb x y
  | _, _ => false
  end.

(** [SameValueZero(a, b)], the key equality of [Map]: as [===] except
    that [NaN] equals itself. *)
Definition SameValueZero (a b : value) : bool :=
  match a, b with
  | VNum x, VNum y =>
      if PrimFloat.is_nan x && PrimFloat.is_nan y then true
      else PrimFloat.eqb x y
  | _, _ => strict_eq a b
  end.

(** What the embedding does not compute is taken from the host: the
    primitive an object converts to and the number a string reads as. *)
Class Host : Type := {
  ToPrimitive : nat -> value;
  StringToNumber : string -> float
}.

Section Coercions.
Context {host : Host}.

Definition primitive (v : value) : value :=
  match v with
  | VObj addr => ToPrimitive addr
  | _ => v
  end.

(** [Number(v)] *)
Definition ToNumber (v : value) : float :=
  match primitive v with
  | VUndefined => PrimFloat.nan
  | VNull => PrimFloat.zero
  | VBool b => if b then PrimFloat.one else PrimFloat.zero
  | VNum x => x
  | VStr s => StringToNumber s
  | VObj _ => PrimFloat.nan
  end.

(** [IsLessThan(x, y)] with an undefined outcome read as [false], the
    way [<] and [>] read it. *)
Definition IsLessThan (x y : value) : bool :=
  match primitive x, primitive y with
  | VStr s1, VStr s2 => String.ltb s1 s2
  | px, py => PrimFloat.ltb (ToNumber px) (ToNumber py)
  end.

(** [a < b] and [a > b] *)
Definition lt (a b : value) : bool := IsLessThan a b.
Definition gt (a b : value) : bool := IsLessThan b a.
End Coercions.

(** *** Numbers used as indices *)

Inductive integer_or_infinity : Type :=
| NegInfinity
| Integer (z : Z)
| PosInfinity.

(** [ToIntegerOrInfinity(x)]: [NaN] and the zeros give 0, a finite
    number is truncated towards zero. *)
Definition ToIntegerOrInfinity (x : float) : integer_or_infinity :=
  match Prim2SF x with
  | S754_nan => Integer 0
  | S754_zero _ => Integer 0
  | S754_infinity s => if s then NegInfinity else PosInfinity
  | S754_finite s m e =>
      let mag := match e with
                 | Zneg p => Z.shiftr (Zpos m) (Zpos p)
                 | _ => Z.shiftl (Zpos m) e
                 end in
      Integer (if s then Z.opp mag else mag)
  end.

(** The number a length or an index denotes. *)
Definition number_of_nat (n : nat) : float :=
  PrimFloat.of_uint63 (Uint63.of_Z (Z.of_nat n)).

(** *** Arrays *)

(** The clamping of a relative index done by [slice]. *)
Definition relative_index (len : Z) (i : integer_or_infinity) : Z :=
  match i with
  | NegInfinity => 0
  | PosInfinity => len
  | Integer z => if (z <? 0)%Z then Z.max (len + z) 0 else Z.min z len
  end.

(** [arr.slice(start, end)]; [end_ = None] is the one-argument call. *)
Definition slice {A} (arr : list A) (start : float) (end_ : option float)
  : list A :=
  let len := Z.of_nat (List.length arr) in
  let k := relative_index len (ToIntegerOrInfinity start) in
  let final := match end_ with
               | None => len
               | Some e => relative_index len (ToIntegerOrInfinity e)
               end in
  firstn (Z.to_nat (final - k)) (skipn (Z.to_nat k) arr).

(** [arr[i]] for an integer index: [None] is [undefined]. *)
Definition index {A} (arr : list A) (i : Z) : option A :=
  if (i <? 0)%Z then None else nth_error arr (Z.to_nat i).

(** [arr.sort(comparefn)] on a copy.  The host sort is stable; it is
    taken here as the stable insertion sort, which places an element
    after those that the comparator does not put behind it. *)
Fixpoint sort_insert {A} (comparefn : A -> A -> Z) (x : A) (sorted : list A)
  : list A :=
  match sorted with
  | [] => [x]
  | y :: rest =>
      if (0 <? comparefn x y)%Z then y :: sort_insert comparefn x rest
      else x :: sorted
  end.

Definition sort {A} (comparefn : A -> A -> Z) (arr : list A) : list A :=
  fold_right (sort_insert comparefn) [] arr.

(** *** [Map] *)

(** A [Map] is its entries in insertion order. *)
Definition Map (V : Type) : Type := list (value * V).

Definition is_negative_zero (x : float) : bool :=
  PrimFloat.is_zero x && PrimFloat.get_sign x.

(** A key [-0] is stored as [+0]. *)
Definition normalize_key (k : value) : value :=
  match k with
  | VNum x => if is_negative_zero x then VNum PrimFloat.zero else k
  | _ => k
  end.

(** [m.get(k)]; [None] is [undefined]. *)
Fixpoint Map_get {V} (m : Map V) (k : value) : option V :=
  match m with
  | [] => None
  | (k', v) :: rest =>
      if SameValueZero k' k then Some v else Map_get rest k
  end.

(** [m.set(k, v)]: an existing entry keeps its key and its place. *)
Fixpoint Map_set {V} (m : Map V) (k : value) (v : V) : Map V :=
  match m with
  | [] => [(normalize_key k, v)]
  | (k', v') :: rest =>
      if SameValueZero k' k then (k', v) :: rest
      else (k', v') :: Map_set rest k v
  end.

(** *** Promises *)

(** The completion of an [async] method that does not throw. *)
Inductive Promise (A : Type) : Type :=
| Resolved (a : A).
Arguments Resolved {A} a.

Definition await {A B} (p : Promise A) (k : A -> Promise B) : Promise B :=
  match p with
  | Resolved a => k a
  end.

End Js.

Import Js.

Notation "x <- p ;; k" := (await p (fun x => k))
  (at level 61, p at next level, right associativity).

(** ** The methods of [QueryBuilder], as computations on [this.items] *)

(** [item[key]] for [key : P extends keyof T]: the type bound makes the
    read total on [T]. *)
Class Keyed (T : Type) : Type := prop : T -> string -> value.

(** The truth value the host gives an inhabitant of the static type. *)
Class Truthy (U : Type) : Type := truthy : U -> bool.

#[global] Instance value_Truthy : Truthy value := ToBoolean.

(** The object literal [{}] filled by assignments: its own properties in
    creation order.  Its prototype is not part of it. *)
Definition object : Type := list (string * value).

(** [CreateDataProperty(o, key, v)]: the own property [key] of [o] is
    made, or given the value [v] where it is. *)
Fixpoint define_property (o : object) (key : string) (v : value) : object :=
  match o with
  | [] => [(key, v)]
  | (k, w) :: rest =>
      if String.eqb k key then (k, v) :: rest
      else (k, w) :: define_property rest key v
  end.

(** [o[key] = v] on an object made by [{}], whose prototype is
    [Object.prototype].  No property of [Object.prototype] stands in the
    way of the assignment but the accessor [__proto__]: at that key the
    assignment calls its setter, which gives [o] no own property (it
    changes the prototype of [o] when [v] is an object or [null], and what
    a later assignment does is then up to that prototype); at every other
    key the assignment makes the own property, or writes it. *)
Definition set_property (o : object) (key : string) (v : value) : object :=
  if String.eqb key "__proto__" then o else define_property o key v.

(** [{ key: K; group: G }] *)
Record GroupRecord (G : Type) : Type := mkGroup { key : value; group : G }.
Arguments mkGroup {G} key group.
Arguments key {G} _.
Arguments group {G} _.

(** [arr.find(p)] followed by an in-place change [f] of the element
    found: [None] when [find] gives [undefined]. *)
Fixpoint find_and_update {A} (p : A -> bool) (f : A -> A) (arr : list A)
  : option (list A) :=
  match arr with
  | [] => None
  | a :: rest =>
      if p a then Some (f a :: rest)
      else option_map (cons a) (find_and_update p f rest)
  end.

Module QueryBuilder.

Section Methods.
Context {host : Host}.
Context {T : Type}.

(** [select(...keys)] *)
Definition select `{Keyed T} (keys : list string) (items : list T)
  : list object :=
  let selectedItems :=
    map (fun item =>
           fold_left (fun selectedItem key =>
                        set_property selectedItem key (prop item key))
                     keys [])
        items in
  selectedItems.

(** [where(predicate)] *)
Definition where_ (predicate : T -> bool) (items : list T) : list T :=
  let filteredItems := filter predicate items in
  filteredItems.

(** The comparator [orderBy] hands to [sort]. *)
Definition compare `{Keyed T} (key : string) (descending : bool) (a b : T)
  : Z :=
  let aVal := prop a key in
  let bVal := prop b key in
  if strict_eq aVal bVal then 0%Z
  else if gt aVal bVal then (if descending then (-1)%Z else 1%Z)
  else (if descending then 1%Z else (-1)%Z).

(** [orderBy(key, descending)]; an omitted [descending] is [false], and
    [slice()] is [slice(0)]. *)
Definition orderBy `{Keyed T} (key : string) (descending : bool)
           (items : list T) : list T :=
  let sortedItems :=
    sort (compare key descending) (slice items PrimFloat.zero None) in
  sortedItems.

(** [skip(count)] *)
Definition skip (count : float) (items : list T) : list T :=
  let skippedItems := slice items count None in
  skippedItems.

(** [take(count)] *)
Definition take (count : float) (items : list T) : list T :=
  let takenItems := slice items PrimFloat.zero (Some count) in
  takenItems.

(** [toArray()] *)
Definition toArray (items : list T) : list T := items.

(** [toGroup(keySelector, groupSelector)] *)
Definition toGroup {G} (keySelector : T -> value)
           (groupSelector : value -> list T -> G) (items : list T)
  : Promise (list (GroupRecord G)) :=
  let groupsMap : Map (list T) :=
    fold_left (fun groupsMap item =>
                 let key := keySelector item in
                 let group := match Map_get groupsMap key with
                              | Some g => g
                              | None => []
                              end in
                 Map_set groupsMap key (group ++ [item]))
              items [] in
  let groups :=
    fold_left (fun groups '(key, group) =>
                 groups ++ [mkGroup key (groupSelector key group)])
              groupsMap [] in
  Resolved groups.

(** [groupBy(keySelector)] *)
Definition groupBy (keySelector : T -> value) (items : list T)
  : list (GroupRecord (list T)) :=
  fold_left (fun groups item =>
               let key := keySelector item in
               match find_and_update
                       (fun '(mkGroup g_key _) => strict_eq g_key key)
                       (fun '(mkGroup g_key g_group) =>
                          mkGroup g_key (g_group ++ [item]))
                       groups with
               | Some groups' => groups'
               | None => groups ++ [mkGroup key [item]]
               end)
            items [].

(** [join(other, keySelector, otherKeySelector, resultSelector)], from
    the point where [other] has been unwrapped to [otherItems]. *)
Definition join {U} `{Truthy U} (otherItems : list U)
           (keySelector : T -> value) (otherKeySelector : U -> value)
           (resultSelector : T -> U -> value) (items : list T)
  : list value :=
  let otherItemsMap : Map U :=
    fold_left (fun m item => Map_set m (otherKeySelector item) item)
              otherItems [] in
  let joinedItems :=
    filter (fun item => negb (strict_eq item VUndefined))
           (map (fun item =>
                   match Map_get otherItemsMap (keySelector item) with
                   | Some otherItem =>
                       if truthy otherItem
                       then resultSelector item otherItem
                       else VUndefined
                   | None => VUndefined
                   end)
                items) in
  joinedItems.

(** [page(pageIndex, pageSize)] *)
Definition page (pageIndex pageSize : float) (items : list T) : list T :=
  let startIndex := (pageIndex * pageSize)%float in
  take pageSize (skip startIndex items).

(** [count()] *)
Definition count (items : list T) : Promise nat :=
  Resolved (List.length items).

(** [sum(key)] *)
Definition sum `{Keyed T} (key : string) (items : list T) : Promise float :=
  Resolved (fold_left (fun sum item =>
                         (sum + ToNumber (prop item key))%float)
                      items PrimFloat.zero).

(** [avg(key)] *)
Definition avg `{Keyed T} (key : string) (items : list T) : Promise float :=
  sum <- sum key items ;;
  count <- count items ;;
  Resolved (if Nat.eqb count 0 then PrimFloat.zero
            else (sum / number_of_nat count)%float).

(** [max(key)]: the accumulator starts as [null], here [None]; an item
    of a type that has the key is not [null], so that [maxItem == null]
    holds of the initial accumulator only. *)
Definition max `{Keyed T} (key : string) (items : list T)
  : Promise (option T) :=
  Resolved (fold_left (fun maxItem item =>
                         match maxItem with
                         | None => Some item
                         | Some m =>
                             if gt (prop item key) (prop m key)
                             then Some item else Some m
                         end)
                      items None).

(** [min(key)] *)
Definition min `{Keyed T} (key : string) (items : list T)
  : Promise (option T) :=
  Resolved (fold_left (fun minItem item =>
                         match minItem with
                         | None => Some item
                         | Some m =>
                             if lt (prop item key) (prop m key)
                             then Some item else Some m
                         end)
                      items None).

(** [any()] *)
Definition any (items : list T) : Promise bool :=
  Resolved (Nat.ltb 0 (List.length items)).

(** [all(predicate)] *)
Definition all (predicate : T -> bool) (items : list T) : Promise bool :=
  Resolved (forallb predicate items).

(** [first()]: [None] is [undefined]. *)
Definition first (items : list T) : Promise (option T) :=
  Resolved (index items 0).

(** [last()] *)
Definition last (items : list T) : Promise (option T) :=
  Resolved (index items (Z.of_nat (List.length items) - 1)).

End Methods.

End QueryBuilder.

(** ** Engine instances

    The methods above say what each call computes from [this.items].  The
    methods below place the engines and the arrays they wrap in a store,
    so that it can be told which calls write to the receiver or to its
    array, and which make a new engine over a new array.  The arrays
    inside group records are part of the records. *)

Module Instances.

(** The element types engines are made at: the caller's item types,
    [any], the records built by [select], and the group records over an
    element type. *)
Inductive ty : Type :=
| TItem (n : nat)
| TAny
| TPicked
| TGroup (t : ty).

Definition ty_eq_dec (a b : ty) : {a = b} + {a <> b}.
Proof. decide equality. apply Nat.eq_dec. Defined.

(** [set_nth n x l] is [l] with position [n] holding [x]. *)
Fixpoint set_nth {A} (n : nat) (x : A) (l : list A) : list A :=
  match l, n with
  | [], _ => []
  | _ :: rest, O => x :: rest
  | a :: rest, S n' => a :: set_nth n' x rest
  end.

Section Store.
Context {host : Host}.
Variable item : nat -> Type.

Fixpoint elt (t : ty) : Type :=
  match t with
  | TItem n => item n
  | TAny => value
  | TPicked => object
  | TGroup t' => GroupRecord (list (elt t'))
  end.

(** An array object: its element type and what it holds. *)
Record array : Type := Array { held : ty; contents : list (elt held) }.

(** An engine: its element type and its field [items], the address of
    an array. *)
Record instance : Type := Instance { elem : ty; items : nat }.

(** The store: the arrays and the engines made so far, each at its
    address. *)
Record heap : Type := Heap { arrays : list array; engines : list instance }.

(** References to an array and to an engine of element type [t]. *)
Definition aref (t : ty) : Type := nat.
Definition ref (t : ty) : Type := nat.

(** A call: it runs in a store, and fails only on a reference that holds
    nothing of its type. *)
Definition M (A : Type) : Type := heap -> option (A * heap).

Definition ret {A} (a : A) : M A := fun h => Some (a, h).

Definition bind {A B} (m : M A) (k : A -> M B) : M B :=
  fun h => match m h with
           | Some (a, h') => k a h'
           | None => None
           end.

Local Notation "x <~ m ;; k" := (bind m (fun x => k))
  (at level 61, m at next level, right associativity).

(** *** Arrays in the store *)

(** A new array holding [l]. *)
Definition new_array {t} (l : list (elt t)) : M (aref t) :=
  fun h => Some (List.length (arrays h),
                 Heap (arrays h ++ [Array t l]) (engines h)).

(** What the array [arr] holds. *)
Definition read_array {t} (arr : aref t) : M (list (elt t)) :=
  fun h => match nth_error (arrays h) arr with
           | Some (Array t' l) =>
               match ty_eq_dec t' t with
               | left e => Some (eq_rect t' (fun x => list (elt x)) l t e, h)
               | right _ => None
               end
           | None => None
           end.

(** The array [arr] made to hold [l]. *)
Definition write_array {t} (arr : aref t) (l : list (elt t)) : M unit :=
  fun h => if Nat.ltb arr (List.length (arrays h))
           then Some (tt, Heap (set_nth arr (Array t l) (arrays h))
                               (engines h))
           else None.

(** [arr.slice(start, end)], [arr.filter(p)] and [arr.map(f)] make a new
    array. *)
Definition Array_slice {t} (arr : aref t) (start : float)
           (end_ : option float) : M (aref t) :=
  l <~ read_array arr ;;
  new_array (slice l start end_).

Definition Array_filter {t} (arr : aref t) (p : elt t -> bool) : M (aref t) :=
  l <~ read_array arr ;;
  new_array (filter p l).

Definition Array_map {t r} (arr : aref t) (f : elt t -> elt r) : M (aref r) :=
  l <~ read_array arr ;;
  new_array (map f l).

(** [arr.sort(comparefn)] sorts [arr] itself and returns it. *)
Definition Array_sort {t} (arr : aref t) (comparefn : elt t -> elt t -> Z)
  : M (aref t) :=
  l <~ read_array arr ;;
  _ <~ write_array arr (sort comparefn l) ;;
  ret arr.

(** *** The class *)

(** [new QueryBuilder(items)] *)
Definition new_QueryBuilder {t} (items : aref t) : M (ref t) :=
  fun h => Some (List.length (engines h),
                 Heap (arrays h) (engines h ++ [Instance t items])).

(** [new QueryBuilder()]: the default [items = []] *)
Definition new_QueryBuilder_empty {t} : M (ref t) :=
  items <~ new_array (t := t) [] ;;
  new_QueryBuilder items.

(** [this.items] *)
Definition get_items {t} (this : ref t) : M (aref t) :=
  fun h => match nth_error (engines h) this with
           | Some (Instance t' arr) =>
               if ty_eq_dec t' t then Some (arr, h) else None
           | None => None
           end.

(** [this.items = items] *)
Definition set_items {t} (this : ref t) (items : aref t) : M unit :=
  fun h => if Nat.ltb this (List.length (engines h))
           then Some (tt, Heap (arrays h)
                               (set_nth this (Instance t items) (engines h)))
           else None.

(** [from(items)] *)
Definition from {t} (this : ref t) (items : aref t) : M (ref t) :=
  _ <~ set_items this items ;;
  ret this.

(** [select(...keys)] *)
Definition select {t} `{Keyed (elt t)} (this : ref t) (keys : list string)
  : M (ref TPicked) :=
  items <~ get_items this ;;
  selectedItems <~ Array_map (r := TPicked) items
                     (fun item =>
                        fold_left (fun selectedItem key =>
                                     set_property selectedItem key
                                                  (prop item key))
                                  keys []) ;;
  new_QueryBuilder selectedItems.

(** [where(predicate)] *)
Definition where_ {t} (this : ref t) (predicate : elt t -> bool)
  : M (ref t) :=
  items <~ get_items this ;;
  filteredItems <~ Array_filter items predicate ;;
  new_QueryBuilder filteredItems.

(** [orderBy(key, descending)]: the copy made by [slice()] is sorted. *)
Definition orderBy {t} `{Keyed (elt t)} (this : ref t) (key : string)
           (descending : bool) : M (ref t) :=
  items <~ get_items this ;;
  copy <~ Array_slice items PrimFloat.zero None ;;
  sortedItems <~ Array_sort copy (QueryBuilder.compare key descending) ;;
  new_QueryBuilder sortedItems.

(** [skip(count)] *)
Definition skip {t} (this : ref t) (count : float) : M (ref t) :=
  items <~ get_items this ;;
  skippedItems <~ Array_slice items count None ;;
  new_QueryBuilder skippedItems.

(** [take(count)] *)
Definition take {t} (this : ref t) (count : float) : M (ref t) :=
  items <~ get_items this ;;
  takenItems <~ Array_slice items PrimFloat.zero (Some count) ;;
  new_QueryBuilder takenItems.

(** [toArray()] returns the array the engine wraps, not a copy. *)
Definition toArray {t} (this : ref t) : M (aref t) :=
  get_items this.

(** [groupBy(keySelector)]: the new engine is made over an empty array,
    then given the array that [reduce] has filled. *)
Definition groupBy {t} (this : ref t) (keySelector : elt t -> value)
  : M (ref (TGroup t)) :=
  groupQuery <~ new_QueryBuilder_empty (t := TGroup t) ;;
  items <~ get_items this ;;
  l <~ read_array items ;;
  groups <~ new_array (t := TGroup t) (QueryBuilder.groupBy keySelector l) ;;
  _ <~ set_items groupQuery groups ;;
  ret groupQuery.

(** [join(other, ...)]: [other] is an array or an engine. *)
Definition join {t u} `{Truthy (elt u)} (this : ref t)
           (other : aref u + ref u)
           (keySelector : elt t -> value)
           (otherKeySelector : elt u -> value)
           (resultSelector : elt t -> elt u -> value)
  : M (ref TAny) :=
  otherItems <~ match other with
                | inr otherQuery => get_items otherQuery
                | inl arr => ret arr
                end ;;
  others <~ read_array otherItems ;;
  let otherItemsMap : Map (elt u) :=
    fold_left (fun m item => Map_set m (otherKeySelector item) item)
              others [] in
  items <~ get_items this ;;
  mapped <~ Array_map (r := TAny) items
              (fun item =>
                 match Map_get otherItemsMap (keySelector item) with
                 | Some otherItem =>
                     if truthy otherItem
                     then resultSelector item otherItem
                     else VUndefined
                 | None => VUndefined
                 end) ;;
  joinedItems <~ Array_filter (t := TAny) mapped
                   (fun item => negb (strict_eq item VUndefined)) ;;
  new_QueryBuilder joinedItems.

(** [page(pageIndex, pageSize)] *)
Definition page {t} (this : ref t) (pageIndex pageSize : float)
  : M (ref t) :=
  let startIndex := (pageIndex * pageSize)%float in
  skipped <~ skip this startIndex ;;
  take skipped pageSize.

(** *** What a call does to the store *)

(** The array at [arr] holds [l]. *)
Definition holds (h : heap) {t} (arr : aref t) (l : list (elt t)) : Prop :=
  nth_error (arrays h) arr = Some (Array t l).

(** The engine at [q] wraps the array at [arr]. *)
Definition wraps (h : heap) {t} (q : ref t) (arr : aref t) : Prop :=
  nth_error (engines h) q = Some (Instance t arr).

(** [h'] is [h] with arrays and engines added: every array and engine of
    [h] is in [h'] as it was. *)
Definition extends (h h' : heap) : Prop :=
  exists more_arrays more_engines,
    arrays h' = arrays h ++ more_arrays
    /\ engines h' = engines h ++ more_engines.

(** The call [m], made in [h] on the engine [this] that wraps the array
    [arr] holding [S], returns a new engine over a new array holding
    [result]; every array and every engine of [h] is as it was, so [this]
    still wraps [arr] and [arr] still holds [S]. *)
Definition branches {t r} (m : M (ref r)) (h : heap) (this : ref t)
           (arr : aref t) (S : list (elt t)) (result : list (elt r)) : Prop :=
  exists q h' arr',
    m h = Some (q, h')
    /\ extends h h'
    /\ List.length (engines h) <= q
    /\ List.length (arrays h) <= arr'
    /\ wraps h' q arr'
    /\ holds h' arr' result
    /\ wraps h' this arr
    /\ holds h' arr S.

(** The call [m], made in [h], makes the engine [this] wrap the array
    [arr] and returns [this]; it makes no engine and no array, and changes
    no array and no other engine. *)
Definition rewrites {t} (m : M (ref t)) (h : heap) (this : ref t)
           (arr : aref t) : Prop :=
  exists h',
    m h = Some (this, h')
    /\ wraps h' this arr
    /\ arrays h' = arrays h
    /\ List.length (engines h') = List.length (engines h)
    /\ forall q, q <> this -> nth_error (engines h') q = nth_error (engines h) q.
End Store.

Arguments Array {item} held contents.
Arguments Heap {item} arrays engines.
Arguments arrays {item} h.
Arguments engines {item} h.
Arguments ret {item A} a.
Arguments bind {item A B} m k.
Arguments new_array {item t} l.
Arguments read_array {item t} arr.
Arguments write_array {item t} arr l.
Arguments Array_slice {item t} arr start end_.
Arguments Array_filter {item t} arr p.
Arguments Array_map {item t r} arr f.
Arguments Array_sort {item t} arr comparefn.
Arguments new_QueryBuilder {item t} items.
Arguments new_QueryBuilder_empty {item t}.
Arguments get_items {item t} this.
Arguments set_items {item t} this items.
Arguments from {item t} this items.
Arguments select {item t _} this keys.
Arguments where_ {item t} this predicate.
Arguments orderBy {host item t _} this key descending.
Arguments skip {item t} this count.
Arguments take {item t} this count.
Arguments toArray {item t} this.
Arguments groupBy {item t} this keySelector.
Arguments join {item t u _} this other keySelector otherKeySelector
  resultSelector.
Arguments page {item t} this pageIndex pageSize.
Arguments holds {item} h {t} arr l.
Arguments wraps {item} h {t} q arr.
Arguments extends {item} h h'.
Arguments branches {item t r} m h this arr S result.
Arguments rewrites {item t} m h this arr.

End Instances.

(** ** Data of the test suite *)

Module Fixtures.
Local Open Scope string_scope.

Record Person : Type :=
  mkPerson { id : float; name : string; age : float; departmentId : float }.

#[global] Instance Person_Keyed : Keyed Person := fun p k =>
  if String.eqb k "id" then VNum (id p)
  else if String.eqb k "name" then VStr (name p)
  else if String.eqb k "age" then VNum (age p)
  else if String.eqb k "departmentId" then VNum (departmentId p)
  else VUndefined.

Definition Alice : Person := mkPerson 1 "Alice" 30 1.
Definition Bob : Person := mkPerson 2 "Bob" 25 2.
Definition Charlie : Person := mkPerson 3 "Charlie" 35 1.
Definition data : list Person := [Alice; Bob; Charlie].

(** Three records of ages 25, 35 and 30. *)
Definition by_age : list Person :=
  [mkPerson 1 "x" 25 1; mkPerson 2 "y" 35 1; mkPerson 3 "z" 30 1].

(** A host in which no object converts to a primitive and no string
    reads as a number; the fixtures compare numbers only. *)
Definition plain_host : Host :=
  {| ToPrimitive := fun _ => VUndefined;
     StringToNumber := fun _ => PrimFloat.nan |}.
End Fixtures.

(** ** Vocabulary of the statements *)

(** [Subsequence l1 l2]: [l1] is [l2] with some elements left out, the
    others in their order. *)
Inductive Subsequence {A : Type} : list A -> list A -> Prop :=
| Subsequence_nil : Subsequence [] []
| Subsequence_drop x l1 l2 : Subsequence l1 l2 -> Subsequence l1 (x :: l2)
| Subsequence_keep x l1 l2 : Subsequence l1 l2 -> Subsequence (x :: l1) (x :: l2).

(** [totally_ordered vals]: on [vals], exactly one of [a < b], [a === b]
    and [a > b] holds of any two values, and [<] and its complement are
    transitive. *)
Section Order.
Context {host : Host}.

Definition exactly_one (x y z : bool) : bool :=
  (x && negb y && negb z) || (negb x && y && negb z)
  || (negb x && negb y && z).

Definition ordered_triple (a b c : value) : bool :=
  exactly_one (lt a b) (strict_eq a b) (gt a b)
  && implb (lt a b && lt b c) (lt a c)
  && implb (negb (lt a b) && negb (lt b c)) (negb (lt a c)).

Definition totally_ordered (vals : list value) : bool :=
  forallb (fun a =>
    forallb (fun b =>
      forallb (fun c => ordered_triple a b c) vals) vals) vals.

(** [r] is the earliest item of [items] that no item beats: it beats
    each item before it, and no item after it beats it. *)
Definition earliest_extremum {T} `{Keyed T}
           (beats : value -> value -> bool) (key : string)
           (items : list T) (r : T) : Prop :=
  exists before after,
    items = before ++ r :: after
    /\ Forall (fun x => beats (prop r key) (prop x key) = true) before
    /\ Forall (fun x => beats (prop x key) (prop r key) = false) after.
End Order.

(** The distinct keys of a sequence of keys, in the order in which each
    is first seen: a key is new when it is [===] to none seen before. *)
Definition first_seen_keys (keys : list value) : list value :=
  fold_left (fun seen k =>
               if existsb (fun k' => strict_eq k' k) seen then seen
               else seen ++ [k])
            keys [].

(** A group record opened by its first item: it carries that item's key,
    and each item that joined later had a key [===] to it. *)
Definition opened_by {T} (keySelector : T -> value)
           (g : GroupRecord (list T)) : Prop :=
  exists x rest,
    group g = x :: rest
    /\ key g = keySelector x
    /\ Forall (fun y => strict_eq (key g) (keySelector y) = true) rest.

(** [groups] partitions [items] by key: the groups together hold the
    items, each group in the order of the source and opened by its first
    item, one group per key in first-seen order. *)
Definition partitions {T} (keySelector : T -> value) (items : list T)
           (groups : list (GroupRecord (list T))) : Prop :=
  Permutation (List.concat (map group groups)) items
  /\ Forall (fun g => Subsequence (group g) items) groups
  /\ map key groups = first_seen_keys (map keySelector items)
  /\ Forall (opened_by keySelector) groups
  /\ ForallOrdPairs (fun k1 k2 => strict_eq k1 k2 = false)
       (map key groups).

(** A key that is not [NaN]: on such a key [===] and the key equality of
    [Map] agree. *)
Definition is_not_NaN (k : value) : bool :=
  match k with
  | VNum x => negb (PrimFloat.is_nan x)
  | _ => true
  end.

(** The record [toGroup] emits for a group of [groupBy]: the key is the
    group's key as a [Map] stores it, the group is what the group selector
    makes of that key and of the items. *)
Definition shaped {T G} (groupSelector : value -> list T -> G)
           (g : GroupRecord (list T)) : GroupRecord G :=
  let key := normalize_key (key g) in
  mkGroup key (groupSelector key (group g)).

(** The lookup the specification describes: the last of [otherItems]
    whose key is the given one. *)
Definition last_with_key {U} (otherKeySelector : U -> value)
           (otherItems : list U) (k : value) : option U :=
  find (fun otherItem => SameValueZero (otherKeySelector otherItem) k)
       (rev otherItems).

(** The join the specification describes: a row for each item whose key
    the lookup holds, in the order of the items. *)
Definition inner_join {T U} (lookup : value -> option U)
           (keySelector : T -> value) (resultSelector : T -> U -> value)
           (items : list T) : list value :=
  flat_map (fun item =>
              match lookup (keySelector item) with
              | Some otherItem => [resultSelector item otherItem]
              | None => []
              end)
           items.

(** The place of a float other than [NaN] among the numbers: its class
    from the negative infinity to the positive one, then its exponent and
    its mantissa, both negated for a negative number. *)
Definition rank (f : spec_float) : option (Z * Z * Z) :=
  match f with
  | S754_nan => None
  | S754_zero _ => Some (0, 0, 0)%Z
  | S754_infinity s => Some (if s then (-2)%Z else 2%Z, 0%Z, 0%Z)
  | S754_finite s m e =>
      Some (if s then ((-1)%Z, (- e)%Z, Zneg m) else (1%Z, e, Zpos m))
  end.

Definition lex_compare (p q : Z * Z * Z) : comparison :=
  let '(a1, a2, a3) := p in
  let '(b1, b2, b3) := q in
  match Z.compare a1 b1 with
  | Eq => match Z.compare a2 b2 with
          | Eq => Z.compare a3 b3
          | c => c
          end
  | c => c
  end.

Definition lex_lt (p q : Z * Z * Z) : Prop :=
  let '(a1, a2, a3) := p in
  let '(b1, b2, b3) := q in
  (a1 < b1 \/ (a1 = b1 /\ (a2 < b2 \/ (a2 = b2 /\ a3 < b3))))%Z.

(** The own property [key] of an object made by [select]: [None] when
    the object has no such own property. *)
Fixpoint get_property (o : object) (key : string) : option value :=
  match o with
  | [] => None
  | (k, v) :: rest =>
      if String.eqb k key then Some v else get_property rest key
  end.


(** The departments of the test suite. *)
Module Departments.
Local Open Scope string_scope.

Record Department : Type := mkDepartment { id : float; name : string }.

(** An object is truthy. *)
#[global] Instance Department_Truthy : Truthy Department := fun _ => true.

Definition HR : Department := mkDepartment 1 "HR".
Definition Engineering : Department := mkDepartment 2 "Engineering".
Definition departments : list Department := [HR; Engineering].

(** A result selector: the names of the person and of the department. *)
Definition with_department (person : Fixtures.Person) (d : Department)
  : value :=
  VStr (Fixtures.name person ++ " of " ++ name d).
End Departments.

(** Sequences whose field values [<] and [>] do not order: readings
    that are strings or numbers, and ages one of which is [NaN]. *)
Module Unordered.
Local Open Scope string_scope.

(** [{ reading: string | number }] *)
Record Reading : Type := mkReading { reading : value }.

#[global] Instance Reading_Keyed : Keyed Reading := fun r k =>
  if String.eqb k "reading" then reading r else VUndefined.

Definition nine : Reading := mkReading (VStr "9").
Definition ten : Reading := mkReading (VStr "10").
Definition nine_and_a_half : Reading := mkReading (VNum 9.5).
Definition readings : list Reading := [nine; ten; nine_and_a_half].
Definition hundred : Reading := mkReading (VNum 100).

Definition digit (c : Ascii.ascii) : option nat :=
  let n := Ascii.nat_of_ascii c in
  if Nat.leb 48 n && Nat.leb n 57 then Some (n - 48) else None.

Fixpoint digits (s : string) (acc : nat) : option nat :=
  match s with
  | EmptyString => Some acc
  | String c rest =>
      match digit c with
      | Some d => digits rest (10 * acc + d)
      | None => None
      end
  end.

(** A host that reads a string of decimal digits as the number it
    writes, as [Number("9")] is 9 and [Number("10")] is 10, for numbers
    below 2^63; the strings of the readings are of that form. *)
Definition decimal_host : Host :=
  {| ToPrimitive := fun _ => VUndefined;
     StringToNumber := fun s =>
       match digits s 0 with
       | Some n => number_of_nat n
       | None => PrimFloat.nan
       end |}.

Definition ageless : Fixtures.Person :=
  Fixtures.mkPerson 1 "x" PrimFloat.nan 1.
Definition aged_one : Fixtures.Person := Fixtures.mkPerson 2 "y" 1 1.
Definition aged_two : Fixtures.Person := Fixtures.mkPerson 3 "z" 2 1.
Definition ages : list Fixtures.Person := [ageless; aged_one; aged_two].
End Unordered.

(** ** Properties *)

Section WhereProperties.
Context {T : Type}.

Lemma filter_Subsequence (p : T -> bool) (l : list T) :
  Subsequence (filter p l) l.
Proof.
  induction l as [|x l IH]; simpl.
  - constructor.
  - destruct (p x); now constructor.
Qed.

Lemma filter_split_Permutation (p : T -> bool) (l : list T) :
  Permutation l (filter p l ++ filter (fun x => negb (p x)) l).
Proof.
  induction l as [|x l IH]; simpl; [constructor|].
  destruct (p x); simpl.
  - now constructor.
  - now apply Permutation_cons_app.
Qed.

(** C4: [where(P).toArray()] is a subsequence of the wrapped sequence,
    each of its elements satisfies [P], and what it leaves out is made of
    elements that fail [P]. *)
Theorem where_keeps_exactly_matching (P : T -> bool) (S : list T) :
  let out := QueryBuilder.toArray (QueryBuilder.where_ P S) in
  Subsequence out S
  /\ Forall (fun x => P x = true) out
  /\ (forall x, In x out -> In x S)
  /\ exists dropped,
       Permutation S (out ++ dropped)
       /\ Forall (fun x => P x = false) dropped.
Proof.
  unfold QueryBuilder.toArray, QueryBuilder.where_; simpl.
  split; [apply filter_Subsequence|].
  split; [apply Forall_forall; intros x Hx; now apply filter_In in Hx|].
  split; [intros x Hx; now apply filter_In in Hx|].
  exists (filter (fun x => negb (P x)) S).
  split; [apply filter_split_Permutation|].
  apply Forall_forall; intros x Hx.
  apply filter_In in Hx. destruct Hx as [_ Hx].
  now apply negb_true_iff in Hx.
Qed.
End WhereProperties.

Section PageProperties.
Context {T : Type}.

Lemma slice_contiguous (arr : list T) (start : float) (end_ : option float) :
  exists before after, arr = before ++ slice arr start end_ ++ after.
Proof.
  assert (run : forall n k,
             arr = firstn k arr ++ firstn n (skipn k arr)
                     ++ skipn n (skipn k arr)).
  { intros n k. now rewrite (firstn_skipn n), (firstn_skipn k). }
  unfold slice. eexists. eexists. apply run.
Qed.

(** C6: [page(pageIndex, pageSize)] is the call chain
    [skip(pageIndex * pageSize).take(pageSize)] on the receiver, and wraps
    the sequence that the chain wraps, a run of consecutive items of the
    source; page indices count from zero. *)
Theorem page_is_skip_then_take (pageIndex pageSize : float) (items : list T) :
  QueryBuilder.toArray (QueryBuilder.page pageIndex pageSize items)
  = QueryBuilder.toArray
      (QueryBuilder.take pageSize
         (QueryBuilder.skip (pageIndex * pageSize)%float items))
  /\ (forall (item : nat -> Type) (t : Instances.ty)
             (this : Instances.ref t) (h : Instances.heap item),
        Instances.page this pageIndex pageSize h
        = Instances.bind
            (Instances.skip this (pageIndex * pageSize)%float)
            (fun skipped => Instances.take skipped pageSize) h)
  /\ (exists before after,
        items = before ++ QueryBuilder.page pageIndex pageSize items ++ after)
  /\ QueryBuilder.page 0%float 2%float [1; 2; 3; 4; 5] = [1; 2]
  /\ QueryBuilder.page 1%float 2%float [1; 2; 3; 4; 5] = [3; 4]
  /\ QueryBuilder.page 2%float 2%float [1; 2; 3; 4; 5] = [5]
  /\ QueryBuilder.page 3%float 2%float [1; 2; 3; 4; 5] = [].
Proof.
  split; [reflexivity|].
  split; [reflexivity|].
  split; [|repeat split; reflexivity].
  unfold QueryBuilder.page, QueryBuilder.take, QueryBuilder.skip.
  destruct (slice_contiguous items (pageIndex * pageSize)%float None)
    as (b1 & a1 & E1).
  destruct (slice_contiguous
              (slice items (pageIndex * pageSize)%float None)
              PrimFloat.zero (Some pageSize)) as (b2 & a2 & E2).
  exists (b1 ++ b2), (a2 ++ a1).
  rewrite E1 at 1. rewrite E2 at 1.
  now rewrite <- !app_assoc.
Qed.
End PageProperties.

Section AverageProperties.
Context {host : Host} {T : Type} `{Keyed T}.

(** C8: [avg(key)] is [sum(key)] divided by [count()] on a non-empty
    sequence, where the count is not zero; on the empty sequence
    [avg(key)] is 0 with no division, and [sum(key)] is 0. *)
Theorem avg_is_sum_over_count (key : string) (items : list T) :
  (items = [] ->
     QueryBuilder.avg key items = Resolved PrimFloat.zero
     /\ QueryBuilder.sum key items = Resolved PrimFloat.zero)
  /\ (items <> [] ->
      exists s c,
        QueryBuilder.sum key items = Resolved s
        /\ QueryBuilder.count items = Resolved c
        /\ c <> 0
        /\ QueryBuilder.avg key items
           = Resolved (s / number_of_nat c)%float).
Proof.
  split.
  - intros ->. split; reflexivity.
  - intros Hne.
    destruct items as [|x rest]; [contradiction|].
    eexists. exists (List.length (x :: rest)).
    split; [reflexivity|].
    split; [reflexivity|].
    split; [discriminate|].
    reflexivity.
Qed.
End AverageProperties.

(** The averages of the test suite: 90 / 3 = 30, and 0 for no item. *)
Lemma avg_is_sum_over_count_witness :
  (Fixtures.data <> []
   /\ QueryBuilder.sum (host := Fixtures.plain_host) "age" Fixtures.data
      = Resolved 90%float
   /\ QueryBuilder.avg (host := Fixtures.plain_host) "age" Fixtures.data
      = Resolved 30%float)
  /\ QueryBuilder.avg (host := Fixtures.plain_host) "age" (@nil Fixtures.Person)
     = Resolved 0%float.
Proof.
  pose proof (avg_is_sum_over_count (host := Fixtures.plain_host)
                "age" Fixtures.data) as [_ Hdata].
  pose proof (avg_is_sum_over_count (host := Fixtures.plain_host)
                "age" (@nil Fixtures.Person)) as [Hnil _].
  split.
  - split; [discriminate|].
    destruct (Hdata ltac:(discriminate)) as (s & c & Hs & Hc & _ & Havg).
    split; [reflexivity|].
    rewrite Havg.
    injection Hs as <-. injection Hc as <-.
    reflexivity.
  - exact (proj1 (Hnil eq_refl)).
Defined.

(** *** The numbers other than [NaN] are totally ordered *)

Section NumberOrder.
Context {host : Host}.

Lemma lex_compare_Lt (p q : Z * Z * Z) :
  lex_compare p q = Lt <-> lex_lt p q.
Proof.
  destruct p as [[a1 a2] a3], q as [[b1 b2] b3]. unfold lex_compare, lex_lt.
  destruct (Z.compare_spec a1 b1), (Z.compare_spec a2 b2),
    (Z.compare_spec a3 b3); split; intros; try discriminate;
    try reflexivity; lia.
Qed.

Lemma lex_compare_Gt (p q : Z * Z * Z) :
  lex_compare p q = Gt <-> lex_lt q p.
Proof.
  destruct p as [[a1 a2] a3], q as [[b1 b2] b3]. unfold lex_compare, lex_lt.
  destruct (Z.compare_spec a1 b1), (Z.compare_spec a2 b2),
    (Z.compare_spec a3 b3); split; intros; try discriminate;
    try reflexivity; lia.
Qed.

Lemma lex_compare_Eq (p q : Z * Z * Z) :
  lex_compare p q = Eq <-> p = q.
Proof.
  destruct p as [[a1 a2] a3], q as [[b1 b2] b3]. unfold lex_compare.
  destruct (Z.compare_spec a1 b1), (Z.compare_spec a2 b2),
    (Z.compare_spec a3 b3); split; intros E; try discriminate;
    try reflexivity; try (injection E; lia); subst; reflexivity.
Qed.

Lemma SFcompare_rank (a b : spec_float) (ra rb : Z * Z * Z) :
  rank a = Some ra -> rank b = Some rb ->
  SFcompare a b = Some (lex_compare ra rb).
Proof.
  destruct a as [sa|sa| |sa ma ea], b as [sb|sb| |sb mb eb];
    try discriminate; simpl;
    intros Ea Eb; injection Ea as <-; injection Eb as <-;
    try (destruct sa; reflexivity); try (destruct sb; reflexivity);
    try (destruct sa, sb; reflexivity).
  destruct sa, sb; try reflexivity; unfold lex_compare; simpl Z.compare.
  rewrite Z.compare_opp, (Z.compare_antisym ea eb).
  destruct (Z.compare ea eb); reflexivity.
Qed.

Lemma not_NaN_rank (x : float) :
  PrimFloat.is_nan x = false -> exists r, rank (Prim2SF x) = Some r.
Proof.
  unfold PrimFloat.is_nan. rewrite negb_false_iff, FloatAxioms.eqb_spec.
  destruct (Prim2SF x) as [s|s| |s m e]; simpl; intros E;
    try discriminate; eexists; reflexivity.
Qed.

Lemma ltb_lex_lt (x y : float) (rx ry : Z * Z * Z) :
  rank (Prim2SF x) = Some rx -> rank (Prim2SF y) = Some ry ->
  (PrimFloat.ltb x y = true <-> lex_lt rx ry).
Proof.
  intros Ex Ey. rewrite FloatAxioms.ltb_spec. unfold SFltb.
  rewrite (SFcompare_rank _ _ _ _ Ex Ey), <- lex_compare_Lt.
  destruct (lex_compare rx ry); split; intros; try discriminate; reflexivity.
Qed.

Lemma eqb_rank_eq (x y : float) (rx ry : Z * Z * Z) :
  rank (Prim2SF x) = Some rx -> rank (Prim2SF y) = Some ry ->
  (PrimFloat.eqb x y = true <-> rx = ry).
Proof.
  intros Ex Ey. rewrite FloatAxioms.eqb_spec. unfold SFeqb.
  rewrite (SFcompare_rank _ _ _ _ Ex Ey), <- lex_compare_Eq.
  destruct (lex_compare rx ry); split; intros; try discriminate; reflexivity.
Qed.

(** Field values that are all numbers, none of them [NaN], are totally
    ordered. *)
Lemma numbers_totally_ordered (vals : list value) :
  Forall (fun v => exists x, v = VNum x /\ PrimFloat.is_nan x = false) vals ->
  totally_ordered vals = true.
Proof.
  intros Hnum. rewrite Forall_forall in Hnum.
  unfold totally_ordered.
  apply forallb_forall. intros a Ha.
  apply forallb_forall. intros b Hb.
  apply forallb_forall. intros c Hc.
  destruct (Hnum a Ha) as (x & -> & Nx).
  destruct (Hnum b Hb) as (y & -> & Ny).
  destruct (Hnum c Hc) as (z & -> & Nz).
  destruct (not_NaN_rank x Nx) as (rx & Ex).
  destruct (not_NaN_rank y Ny) as (ry & Ey).
  destruct (not_NaN_rank z Nz) as (rz & Ez).
  unfold ordered_triple, gt, lt, IsLessThan, ToNumber, primitive.
  cbn [strict_eq].
  pose proof (ltb_lex_lt x y _ _ Ex Ey) as Hxy.
  pose proof (ltb_lex_lt y x _ _ Ey Ex) as Hyx.
  pose proof (ltb_lex_lt y z _ _ Ey Ez) as Hyz.
  pose proof (ltb_lex_lt x z _ _ Ex Ez) as Hxz.
  pose proof (eqb_rank_eq x y _ _ Ex Ey) as Exy.
  destruct rx as [[x1 x2] x3], ry as [[y1 y2] y3], rz as [[z1 z2] z3].
  unfold lex_lt in *.
  destruct (PrimFloat.ltb x y), (PrimFloat.ltb y x), (PrimFloat.ltb y z),
    (PrimFloat.ltb x z), (PrimFloat.eqb x y); try reflexivity; exfalso;
    repeat match goal with
           | H : true = true <-> _ |- _ =>
               apply proj1 in H; specialize (H eq_refl)
           | H : false = true <-> ?P |- _ =>
               assert (~ P) by (intros HP; apply H in HP; discriminate);
               clear H
           end;
    try match goal with
        | H : ~ (_, _, _) = (_, _, _) |- _ =>
            assert (x1 <> y1 \/ x2 <> y2 \/ x3 <> y3)
              by (destruct (Z.eq_dec x1 y1), (Z.eq_dec x2 y2),
                    (Z.eq_dec x3 y3); subst; tauto || lia);
            clear H
        | H : (_, _, _) = (_, _, _) |- _ => injection H as ? ? ?
        end; lia.
Qed.
End NumberOrder.

Section ExtremumProperties.
Context {host : Host} {T : Type} `{Keyed T}.

Lemma totally_ordered_triple {vals : list value} (a b c : value) :
  totally_ordered vals = true ->
  In a vals -> In b vals -> In c vals ->
  ordered_triple a b c = true.
Proof.
  unfold totally_ordered. intros Hall Ha Hb Hc.
  rewrite forallb_forall in Hall. specialize (Hall a Ha).
  rewrite forallb_forall in Hall. specialize (Hall b Hb).
  rewrite forallb_forall in Hall. exact (Hall c Hc).
Qed.

Lemma lt_transitive {vals} a b c :
  totally_ordered vals = true -> In a vals -> In b vals -> In c vals ->
  lt a b = true -> lt b c = true -> lt a c = true.
Proof.
  intros Hall Ha Hb Hc Hab Hbc.
  pose proof (totally_ordered_triple a b c Hall Ha Hb Hc) as Ht.
  unfold ordered_triple in Ht.
  rewrite Hab, Hbc in Ht.
  destruct (lt a c); [reflexivity|].
  rewrite !andb_true_iff in Ht. now destruct Ht as [[_ Ht] _].
Qed.

Lemma not_lt_transitive {vals} a b c :
  totally_ordered vals = true -> In a vals -> In b vals -> In c vals ->
  lt a b = false -> lt b c = false -> lt a c = false.
Proof.
  intros Hall Ha Hb Hc Hab Hbc.
  pose proof (totally_ordered_triple a b c Hall Ha Hb Hc) as Ht.
  unfold ordered_triple in Ht.
  rewrite Hab, Hbc in Ht.
  destruct (lt a c); [|reflexivity].
  rewrite !andb_true_iff in Ht. now destruct Ht as [_ Ht].
Qed.

Lemma lt_asymmetric {vals} a b :
  totally_ordered vals = true -> In a vals -> In b vals ->
  lt a b = true -> lt b a = false.
Proof.
  intros Hall Ha Hb Hab.
  pose proof (totally_ordered_triple a b b Hall Ha Hb Hb) as Ht.
  unfold ordered_triple, exactly_one, gt in Ht. fold (lt b a) in Ht.
  rewrite Hab in Ht.
  destruct (lt b a); [|reflexivity].
  destruct (strict_eq a b); discriminate.
Qed.

Lemma lt_irreflexive {vals} a :
  totally_ordered vals = true -> In a vals -> lt a a = false.
Proof.
  intros Hall Ha.
  destruct (lt a a) eqn:E; [|reflexivity].
  now rewrite (lt_asymmetric a a Hall Ha Ha E) in E.
Qed.

Lemma strict_eq_not_lt {vals} a b :
  totally_ordered vals = true -> In a vals -> In b vals ->
  strict_eq a b = true -> lt a b = false /\ lt b a = false.
Proof.
  intros Hall Ha Hb Hab.
  pose proof (totally_ordered_triple a b b Hall Ha Hb Hb) as Ht.
  unfold ordered_triple, exactly_one, gt in Ht. fold (lt b a) in Ht.
  rewrite Hab in Ht.
  destruct (lt a b), (lt b a); try discriminate; now split.
Qed.

(** The reducer of [max] and [min], for either comparison. *)
Section Reducer.
Variable beats : value -> value -> bool.
Variable key : string.
Variable whole : list T.

Hypothesis beats_transitive :
  forall a b c, In a whole -> In b whole -> In c whole ->
    beats (prop a key) (prop b key) = true ->
    beats (prop b key) (prop c key) = true ->
    beats (prop a key) (prop c key) = true.
Hypothesis beats_unbeaten :
  forall a b c, In a whole -> In b whole -> In c whole ->
    beats (prop c key) (prop b key) = false ->
    beats (prop a key) (prop b key) = true ->
    beats (prop a key) (prop c key) = true.

Lemma reduce_keeps_earliest (rest before after : list T) (m : T) :
  before ++ m :: after ++ rest = whole ->
  Forall (fun x => beats (prop m key) (prop x key) = true) before ->
  Forall (fun x => beats (prop x key) (prop m key) = false) after ->
  exists r,
    fold_left (fun acc item =>
                 match acc with
                 | None => Some item
                 | Some m =>
                     if beats (prop item key) (prop m key)
                     then Some item else Some m
                 end) rest (Some m) = Some r
    /\ earliest_extremum beats key whole r.
Proof.
  revert before after m.
  induction rest as [|x rest IH]; intros before after m Hwhole Hb Ha.
  - exists m. split; [reflexivity|].
    exists before, after. rewrite app_nil_r in Hwhole. now split.
  - simpl.
    assert (Hin : forall y, In y (before ++ m :: after ++ [x]) ->
                            In y whole).
    { intros y Hy. rewrite <- Hwhole.
      rewrite in_app_iff in *. simpl in *. rewrite in_app_iff in *.
      simpl in *. tauto. }
    assert (Hx : In x whole)
      by (apply Hin; rewrite in_app_iff; simpl; rewrite in_app_iff;
          simpl; tauto).
    assert (Hm : In m whole)
      by (apply Hin; rewrite in_app_iff; simpl; tauto).
    destruct (beats (prop x key) (prop m key)) eqn:E.
    + apply (IH (before ++ m :: after) [] x).
      * rewrite <- Hwhole, <- app_assoc. reflexivity.
      * apply Forall_app. split; [|constructor; [exact E|]].
        -- rewrite Forall_forall in *. intros y Hy.
           apply beats_transitive with (b := m); auto.
           apply Hin. rewrite in_app_iff. tauto.
        -- rewrite Forall_forall in *. intros y Hy.
           apply beats_unbeaten with (b := m); auto.
           apply Hin. rewrite in_app_iff. simpl.
           rewrite in_app_iff. tauto.
      * constructor.
    + apply (IH before (after ++ [x]) m).
      * rewrite <- Hwhole, <- app_assoc. reflexivity.
      * exact Hb.
      * apply Forall_app. split; [exact Ha|]. now constructor.
Qed.
End Reducer.

Lemma max_earliest (key : string) (x : T) (rest : list T) :
  totally_ordered (map (fun i => prop i key) (x :: rest)) = true ->
  exists r, QueryBuilder.max key (x :: rest) = Resolved (Some r)
            /\ earliest_extremum gt key (x :: rest) r.
Proof.
  intros Hall.
  assert (Hv : forall a, In a (x :: rest) ->
                         In (prop a key)
                            (map (fun i => prop i key) (x :: rest)))
    by (intros a Ha; now apply (in_map (fun i => prop i key))).
  destruct (reduce_keeps_earliest gt key (x :: rest)) with
    (rest := rest) (before := @nil T) (after := @nil T) (m := x)
    as (r & Hr & He); try reflexivity; try constructor.
  - intros a b c Ha Hb Hc Hab Hbc. unfold gt in *.
    apply (lt_transitive _ (prop b key) _ Hall); auto.
  - intros a b c Ha Hb Hc Hcb Hab. unfold gt in *.
    fold (lt (prop b key) (prop c key)) in Hcb.
    fold (lt (prop b key) (prop a key)) in Hab.
    fold (lt (prop c key) (prop a key)).
    destruct (lt (prop c key) (prop a key)) eqn:E; [reflexivity|].
    rewrite (not_lt_transitive (prop b key) (prop c key) (prop a key)
               Hall) in Hab; auto.
  - exists r. split; [|exact He].
    exact (f_equal Resolved Hr).
Qed.

Lemma min_earliest (key : string) (x : T) (rest : list T) :
  totally_ordered (map (fun i => prop i key) (x :: rest)) = true ->
  exists r, QueryBuilder.min key (x :: rest) = Resolved (Some r)
            /\ earliest_extremum lt key (x :: rest) r.
Proof.
  intros Hall.
  assert (Hv : forall a, In a (x :: rest) ->
                         In (prop a key)
                            (map (fun i => prop i key) (x :: rest)))
    by (intros a Ha; now apply (in_map (fun i => prop i key))).
  destruct (reduce_keeps_earliest lt key (x :: rest)) with
    (rest := rest) (before := @nil T) (after := @nil T) (m := x)
    as (r & Hr & He); try reflexivity; try constructor.
  - intros a b c Ha Hb Hc Hab Hbc.
    apply (lt_transitive _ (prop b key) _ Hall); auto.
  - intros a b c Ha Hb Hc Hcb Hab.
    destruct (lt (prop a key) (prop c key)) eqn:E; [reflexivity|].
    rewrite (not_lt_transitive (prop a key) (prop c key) (prop b key)
               Hall) in Hab; auto.
  - exists r. split; [|exact He].
    exact (f_equal Resolved Hr).
Qed.
End ExtremumProperties.

(** [<] on any two values: it never holds both ways, and it does not
    tell apart two values that are [===]. *)
Section ValueOrder.
Context {host : Host}.

Lemma rank_None (f : spec_float) : rank f = None -> f = S754_nan.
Proof. destruct f as [s|s| |s m e]; simpl; try discriminate. reflexivity. Qed.

Lemma SFcompare_nan (f : spec_float) :
  SFcompare S754_nan f = None /\ SFcompare f S754_nan = None.
Proof. destruct f as [s|s| |s m e]; split; reflexivity. Qed.

Lemma ltb_without_rank (x y : float) :
  rank (Prim2SF x) = None \/ rank (Prim2SF y) = None ->
  PrimFloat.ltb x y = false /\ PrimFloat.eqb x y = false.
Proof.
  rewrite FloatAxioms.ltb_spec, FloatAxioms.eqb_spec. unfold SFltb, SFeqb.
  intros [E|E]; apply rank_None in E; rewrite E.
  - rewrite (proj1 (SFcompare_nan _)). now split.
  - rewrite (proj2 (SFcompare_nan _)). now split.
Qed.

Lemma ltb_asymmetric (x y : float) :
  PrimFloat.ltb x y = true -> PrimFloat.ltb y x = false.
Proof.
  intros Hxy.
  destruct (rank (Prim2SF x)) as [rx|] eqn:Ex;
    [|rewrite (proj1 (ltb_without_rank x y (or_introl Ex))) in Hxy;
      discriminate].
  destruct (rank (Prim2SF y)) as [ry|] eqn:Ey;
    [|rewrite (proj1 (ltb_without_rank x y (or_intror Ey))) in Hxy;
      discriminate].
  apply (ltb_lex_lt x y rx ry Ex Ey) in Hxy.
  destruct (PrimFloat.ltb y x) eqn:Hyx; [|reflexivity].
  apply (ltb_lex_lt y x ry rx Ey Ex) in Hyx.
  destruct rx as [[x1 x2] x3], ry as [[y1 y2] y3].
  unfold lex_lt in *. lia.
Qed.

Lemma ltb_congruent (x y z : float) :
  PrimFloat.eqb x y = true ->
  PrimFloat.ltb x z = PrimFloat.ltb y z
  /\ PrimFloat.ltb z x = PrimFloat.ltb z y.
Proof.
  intros Hxy.
  destruct (rank (Prim2SF x)) as [rx|] eqn:Ex;
    [|rewrite (proj2 (ltb_without_rank x y (or_introl Ex))) in Hxy;
      discriminate].
  destruct (rank (Prim2SF y)) as [ry|] eqn:Ey;
    [|rewrite (proj2 (ltb_without_rank x y (or_intror Ey))) in Hxy;
      discriminate].
  apply (eqb_rank_eq x y rx ry Ex Ey) in Hxy. subst ry.
  destruct (rank (Prim2SF z)) as [rz|] eqn:Ez.
  - pose proof (ltb_lex_lt x z rx rz Ex Ez) as Hxz.
    pose proof (ltb_lex_lt y z rx rz Ey Ez) as Hyz.
    pose proof (ltb_lex_lt z x rz rx Ez Ex) as Hzx.
    pose proof (ltb_lex_lt z y rz rx Ez Ey) as Hzy.
    split.
    + destruct (PrimFloat.ltb x z), (PrimFloat.ltb y z); try reflexivity.
      * symmetry. apply Hyz, Hxz. reflexivity.
      * apply Hxz, Hyz. reflexivity.
    + destruct (PrimFloat.ltb z x), (PrimFloat.ltb z y); try reflexivity.
      * symmetry. apply Hzy, Hzx. reflexivity.
      * apply Hzx, Hzy. reflexivity.
  - rewrite (proj1 (ltb_without_rank x z (or_intror Ez))).
    rewrite (proj1 (ltb_without_rank y z (or_intror Ez))).
    rewrite (proj1 (ltb_without_rank z x (or_introl Ez))).
    rewrite (proj1 (ltb_without_rank z y (or_introl Ez))).
    now split.
Qed.

Lemma IsLessThan_asymmetric (a b : value) :
  lt a b = true -> lt b a = false.
Proof.
  unfold lt, IsLessThan.
  destruct (primitive a) as [| |ba|xa|sa|oa],
    (primitive b) as [| |bb|xb|sb|ob];
    try apply ltb_asymmetric.
  unfold String.ltb. rewrite (String.compare_antisym sb sa).
  destruct (String.compare sa sb); simpl; intros E;
    try discriminate; reflexivity.
Qed.

Lemma IsLessThan_congruent (a b c : value) :
  strict_eq a b = true ->
  lt a c = lt b c /\ lt c a = lt c b.
Proof.
  destruct a as [| |ba|xa|sa|oa], b as [| |bb|xb|sb|ob];
    simpl strict_eq; try discriminate; intros E.
  - now split.
  - now split.
  - apply Bool.eqb_prop in E. subst bb. now split.
  - unfold lt, IsLessThan, ToNumber. cbn [primitive].
    destruct (primitive c) as [| |bc|xc|sc|oc];
      apply (ltb_congruent xa xb _ E).
  - apply String.eqb_eq in E. subst sb. now split.
  - apply Nat.eqb_eq in E. subst ob. now split.
Qed.
End ValueOrder.

Section ExtremumClaims.
Context {host : Host} {T : Type} `{Keyed T}.

Lemma reduce_picks_member (beats : value -> value -> bool) (key : string)
      (rest : list T) (m : T) :
  exists r,
    fold_left (fun acc item =>
                 match acc with
                 | None => Some item
                 | Some m =>
                     if beats (prop item key) (prop m key)
                     then Some item else Some m
                 end) rest (Some m) = Some r
    /\ In r (m :: rest).
Proof.
  revert m. induction rest as [|x rest IH]; intros m.
  - exists m. split; [reflexivity|now left].
  - simpl fold_left.
    destruct (beats (prop x key) (prop m key)).
    + destruct (IH x) as (r & Hr & Hin). exists r. split; [exact Hr|].
      now right.
    + destruct (IH m) as (r & Hr & Hin). exists r. split; [exact Hr|].
      destruct Hin as [->|Hin]; [now left|now right; right].
Qed.

Lemma earliest_extremum_unbeaten (beats : value -> value -> bool)
      (key : string) (items : list T) (r : T) :
  (forall a b, In a items -> In b items ->
               beats (prop a key) (prop b key) = true ->
               beats (prop b key) (prop a key) = false) ->
  (forall a, In a items -> beats (prop a key) (prop a key) = false) ->
  earliest_extremum beats key items r ->
  forall x, In x items -> beats (prop x key) (prop r key) = false.
Proof.
  intros Hasym Hirr (before & after & -> & Hb & Ha) x Hx.
  rewrite Forall_forall in Hb, Ha.
  assert (Hr : In r (before ++ r :: after))
    by (rewrite in_app_iff; simpl; tauto).
  rewrite in_app_iff in Hx. simpl in Hx.
  destruct Hx as [Hx|[<-|Hx]].
  - apply Hasym; auto. rewrite in_app_iff; tauto.
  - now apply Hirr.
  - now apply Ha.
Qed.

Lemma first_such {A : Type} (P : A -> bool) (l : list A) (g : A) :
  In g l -> P g = true ->
  exists before t after,
    l = before ++ t :: after
    /\ P t = true
    /\ Forall (fun x => P x = false) before.
Proof.
  induction l as [|x l IH]; intros Hin Hg; [contradiction|].
  destruct (P x) eqn:Px.
  - exists [], x, l. repeat split; [exact Px|constructor].
  - destruct Hin as [->|Hin]; [congruence|].
    destruct (IH Hin Hg) as (before & t & after & -> & Pt & Hb).
    exists (x :: before), t, after.
    repeat split; [exact Pt|now constructor].
Qed.

(** The reducer of [max] and [min] on a sequence that has an earliest
    extremum, whether or not its values are ordered. *)
Section ReducerOnExtremum.
Variable beats : value -> value -> bool.
Variable key : string.

Hypothesis beats_asymmetric :
  forall a b, beats a b = true -> beats b a = false.
Hypothesis beats_congruent :
  forall a b c, strict_eq a b = true ->
                beats a c = beats b c /\ beats c a = beats c b.

Lemma reduce_stays (after : list T) (m : T) :
  Forall (fun x => beats (prop x key) (prop m key) = false) after ->
  fold_left (fun acc item =>
               match acc with
               | None => Some item
               | Some m =>
                   if beats (prop item key) (prop m key)
                   then Some item else Some m
               end) after (Some m) = Some m.
Proof.
  induction 1 as [|x after Hx Hafter IH]; [reflexivity|].
  simpl. now rewrite Hx.
Qed.

Lemma reduce_earliest (items : list T) (t : T) :
  earliest_extremum beats key items t ->
  fold_left (fun acc item =>
               match acc with
               | None => Some item
               | Some m =>
                   if beats (prop item key) (prop m key)
                   then Some item else Some m
               end) items None = Some t.
Proof.
  intros (before & after & -> & Hb & Ha).
  rewrite fold_left_app.
  destruct before as [|b0 bs].
  - simpl. now apply reduce_stays.
  - simpl fold_left at 2.
    destruct (reduce_picks_member beats key bs b0) as (a & -> & Hin).
    simpl. rewrite Forall_forall in Hb. rewrite (Hb a Hin).
    now apply reduce_stays.
Qed.

Lemma extreme_value_is_returned (items : list T) (g : T) :
  In g items ->
  (forall x, In x items ->
             beats (prop g key) (prop x key) = true
             \/ strict_eq (prop g key) (prop x key) = true) ->
  exists t,
    fold_left (fun acc item =>
                 match acc with
                 | None => Some item
                 | Some m =>
                     if beats (prop item key) (prop m key)
                     then Some item else Some m
                 end) items None = Some t
    /\ strict_eq (prop g key) (prop t key) = true
    /\ forall x, In x items -> beats (prop x key) (prop t key) = false.
Proof.
  intros Hg Hall.
  assert (Hirr : forall a, beats a a = false).
  { intros a. destruct (beats a a) eqn:E; [|reflexivity].
    now rewrite (beats_asymmetric a a E) in E. }
  assert (Egg : strict_eq (prop g key) (prop g key) = true).
  { destruct (Hall g Hg) as [E|E]; [|exact E].
    now rewrite Hirr in E. }
  destruct (first_such (fun x => strict_eq (prop g key) (prop x key))
              items g Hg Egg)
    as (before & t & after & Eitems & Et & Hbefore).
  destruct (beats_congruent _ _ (prop t key) Et) as [_ Egt].
  rewrite Hirr in Egt.
  assert (Hx : earliest_extremum beats key items t).
  { exists before, after. split; [exact Eitems|].
    rewrite Forall_forall in Hbefore. split; apply Forall_forall.
    - intros x Hx.
      destruct (beats_congruent _ _ (prop x key) Et) as [<- _].
      destruct (Hall x) as [E|E]; [|exact E|].
      + rewrite Eitems, in_app_iff. now left.
      + now rewrite (Hbefore x Hx) in E.
    - intros x Hx.
      destruct (beats_congruent _ _ (prop x key) Et) as [_ <-].
      destruct (Hall x) as [E|E].
      + rewrite Eitems, in_app_iff. right. now right.
      + now apply beats_asymmetric.
      + destruct (beats_congruent _ _ (prop x key) E) as [_ ->].
        apply Hirr. }
  exists t. split; [now apply reduce_earliest|]. split; [exact Et|].
  apply (earliest_extremum_unbeaten beats key items t); [| |exact Hx].
  - intros a b _ _. apply beats_asymmetric.
  - intros a _. apply Hirr.
Qed.
End ReducerOnExtremum.

(** C9: on the empty sequence [max(key)], [min(key)], [first()] and
    [last()] resolve to the absent value; on a non-empty sequence
    [max(key)] and [min(key)] resolve to an item of the sequence.  When
    the field has a greatest (least) value among the items, one that is
    [>] ([<]) or [===] the value of every item, the item [max] ([min])
    resolves to holds it, and no item exceeds it (goes below it); when the
    field values are totally ordered, no item exceeds (goes below) the item
    returned. *)
Theorem extremum_absent_or_whole_item (key : string) (items : list T) :
  (items = [] ->
     QueryBuilder.max key items = Resolved None
     /\ QueryBuilder.min key items = Resolved None
     /\ QueryBuilder.first items = Resolved None
     /\ QueryBuilder.last items = Resolved None)
  /\ (items <> [] ->
      exists hi lo,
        QueryBuilder.max key items = Resolved (Some hi)
        /\ In hi items
        /\ QueryBuilder.min key items = Resolved (Some lo)
        /\ In lo items
        /\ (forall g, In g items ->
              (forall x, In x items ->
                         gt (prop g key) (prop x key) = true
                         \/ strict_eq (prop g key) (prop x key) = true) ->
              strict_eq (prop g key) (prop hi key) = true
              /\ (forall x, In x items ->
                            gt (prop x key) (prop hi key) = false))
        /\ (forall g, In g items ->
              (forall x, In x items ->
                         lt (prop g key) (prop x key) = true
                         \/ strict_eq (prop g key) (prop x key) = true) ->
              strict_eq (prop g key) (prop lo key) = true
              /\ (forall x, In x items ->
                            lt (prop x key) (prop lo key) = false))
        /\ (totally_ordered (map (fun i => prop i key) items) = true ->
            (forall x, In x items ->
                       gt (prop x key) (prop hi key) = false)
            /\ (forall x, In x items ->
                          lt (prop x key) (prop lo key) = false))).
Proof.
  split.
  - intros ->. repeat split; reflexivity.
  - intros Hne. destruct items as [|x rest]; [contradiction|].
    destruct (reduce_picks_member gt key rest x) as (hi & Hhi & Hinhi).
    destruct (reduce_picks_member lt key rest x) as (lo & Hlo & Hinlo).
    exists hi, lo.
    split; [exact (f_equal Resolved Hhi)|].
    split; [exact Hinhi|].
    split; [exact (f_equal Resolved Hlo)|].
    split; [exact Hinlo|].
    split; [|split].
    { intros g Hg Hgreatest.
      destruct (extreme_value_is_returned gt key) with
        (items := x :: rest) (g := g) as (t & Et & Hgt & Hun); auto.
      - intros a b. unfold gt. apply IsLessThan_asymmetric.
      - intros a b c E. unfold gt.
        destruct (IsLessThan_congruent a b c E) as [E1 E2]. now split.
      - change (fold_left _ (x :: rest) None) with (fold_left
          (fun acc item =>
             match acc with
             | None => Some item
             | Some m =>
                 if gt (prop item key) (prop m key)
                 then Some item else Some m
             end) rest (Some x)) in Et.
        rewrite Hhi in Et. injection Et as <-. now split. }
    { intros g Hg Hleast.
      destruct (extreme_value_is_returned lt key) with
        (items := x :: rest) (g := g) as (t & Et & Hgt & Hun); auto.
      - apply IsLessThan_asymmetric.
      - apply IsLessThan_congruent.
      - change (fold_left _ (x :: rest) None) with (fold_left
          (fun acc item =>
             match acc with
             | None => Some item
             | Some m =>
                 if lt (prop item key) (prop m key)
                 then Some item else Some m
             end) rest (Some x)) in Et.
        rewrite Hlo in Et. injection Et as <-. now split. }
    intros Hall.
    assert (Hv : forall a, In a (x :: rest) ->
                           In (prop a key)
                              (map (fun i => prop i key) (x :: rest)))
      by (intros a Ha; now apply (in_map (fun i => prop i key))).
    destruct (max_earliest key x rest Hall) as (hi' & Ehi & Xhi).
    destruct (min_earliest key x rest Hall) as (lo' & Elo & Xlo).
    assert (hi' = hi).
    { pose proof (f_equal Resolved Hhi) as E.
      change (QueryBuilder.max key (x :: rest) = Resolved (Some hi)) in E.
      rewrite Ehi in E. now injection E. }
    assert (lo' = lo).
    { pose proof (f_equal Resolved Hlo) as E.
      change (QueryBuilder.min key (x :: rest) = Resolved (Some lo)) in E.
      rewrite Elo in E. now injection E. }
    subst hi' lo'.
    split.
    + apply (earliest_extremum_unbeaten gt key (x :: rest) hi);
        [| |exact Xhi].
      * intros a b Ha Hb. unfold gt.
        apply (lt_asymmetric _ _ Hall); auto.
      * intros a Ha. unfold gt. apply (lt_irreflexive _ Hall); auto.
    + apply (earliest_extremum_unbeaten lt key (x :: rest) lo);
        [| |exact Xlo].
      * intros a b Ha Hb. apply (lt_asymmetric _ _ Hall); auto.
      * intros a Ha. apply (lt_irreflexive _ Hall); auto.
Qed.

(** C10: when the field values of a non-empty sequence are totally
    ordered by [<] and [>], [max(key)] resolves to the earliest item
    with the greatest value and [min(key)] to the earliest item with the
    least value: the item returned has a strictly greater (smaller) value
    than every item before it, and no item after it has a greater
    (smaller) value than it. *)
Theorem extremum_ties_go_to_earliest (key : string) (items : list T) :
  items <> [] ->
  totally_ordered (map (fun i => prop i key) items) = true ->
  exists hi lo,
    QueryBuilder.max key items = Resolved (Some hi)
    /\ earliest_extremum gt key items hi
    /\ QueryBuilder.min key items = Resolved (Some lo)
    /\ earliest_extremum lt key items lo.
Proof.
  intros Hne Hall. destruct items as [|x rest]; [contradiction|].
  destruct (max_earliest key x rest Hall) as (hi & Ehi & Xhi).
  destruct (min_earliest key x rest Hall) as (lo & Elo & Xlo).
  exists hi, lo. auto.
Qed.
End ExtremumClaims.

(** The extremes of the test suite by age, and the absent value for no
    person; a reading of 100 after readings that [<] does not order is
    greater than each of them, and is the maximum. *)
Lemma extremum_absent_or_whole_item_witness :
  (QueryBuilder.max (host := Fixtures.plain_host) "age" (@nil Fixtures.Person)
   = Resolved None)
  /\ QueryBuilder.max (host := Fixtures.plain_host) "age" Fixtures.data
     = Resolved (Some Fixtures.Charlie)
  /\ QueryBuilder.min (host := Fixtures.plain_host) "age" Fixtures.data
     = Resolved (Some Fixtures.Bob)
  /\ (forall x, In x Fixtures.data ->
        gt (host := Fixtures.plain_host) (prop x "age")
           (prop Fixtures.Charlie "age") = false)
  /\ (forall x, In x Fixtures.data ->
        lt (host := Fixtures.plain_host) (prop x "age")
           (prop Fixtures.Bob "age") = false)
  /\ QueryBuilder.max (host := Unordered.decimal_host) "reading"
       (Unordered.readings ++ [Unordered.hundred])
     = Resolved (Some Unordered.hundred)
  /\ (forall x, In x (Unordered.readings ++ [Unordered.hundred]) ->
        gt (host := Unordered.decimal_host) (prop x "reading")
           (prop Unordered.hundred "reading") = false).
Proof.
  pose proof (extremum_absent_or_whole_item (host := Fixtures.plain_host)
                "age" (@nil Fixtures.Person)) as [Hnil _].
  pose proof (extremum_absent_or_whole_item (host := Fixtures.plain_host)
                "age" Fixtures.data) as [_ Hdata].
  pose proof (extremum_absent_or_whole_item
                (host := Unordered.decimal_host) "reading"
                (Unordered.readings ++ [Unordered.hundred]))
    as [_ Hreadings].
  split; [exact (proj1 (Hnil eq_refl))|].
  destruct (Hdata ltac:(discriminate))
    as (hi & lo & Ehi & _ & Elo & _ & _ & Hleast & Hord).
  assert (Some hi = Some Fixtures.Charlie) as Hhi
      by (injection Ehi as <-; reflexivity).
  assert (Some lo = Some Fixtures.Bob) as Hlo
      by (injection Elo as <-; reflexivity).
  injection Hhi as ->. injection Hlo as ->.
  split; [exact Ehi|]. split; [exact Elo|].
  split; [exact (proj1 (Hord eq_refl))|].
  split.
  { apply (Hleast Fixtures.Bob); [simpl; tauto|].
    intros x [<-|[<-|[<-|[]]]]; [left|right|left]; reflexivity. }
  destruct (Hreadings ltac:(discriminate))
    as (top & _ & Etop & _ & _ & _ & Hgreatest & _ & _).
  assert (Some top = Some Unordered.hundred) as Htop
      by (injection Etop as <-; reflexivity).
  injection Htop as ->.
  split; [exact Etop|].
  apply (Hgreatest Unordered.hundred); [simpl; tauto|].
  intros x [<-|[<-|[<-|[<-|[]]]]]; [left|left|left|right]; reflexivity.
Defined.

(** Readings "9", "10" and 9.5: [max] and [min] both resolve to 9.5,
    which "10" exceeds and "9" goes below.  Ages [NaN], 1 and 2: [max]
    and [min] both resolve to the record of age [NaN], which is neither
    [>] nor [===] the age 2. *)
Lemma extremum_is_not_extreme_on_unordered_values :
  QueryBuilder.max (host := Unordered.decimal_host) "reading"
    Unordered.readings
  = Resolved (Some Unordered.nine_and_a_half)
  /\ In Unordered.ten Unordered.readings
  /\ gt (host := Unordered.decimal_host) (prop Unordered.ten "reading")
        (prop Unordered.nine_and_a_half "reading") = true
  /\ QueryBuilder.min (host := Unordered.decimal_host) "reading"
       Unordered.readings
     = Resolved (Some Unordered.nine_and_a_half)
  /\ In Unordered.nine Unordered.readings
  /\ lt (host := Unordered.decimal_host) (prop Unordered.nine "reading")
        (prop Unordered.nine_and_a_half "reading") = true
  /\ QueryBuilder.max (host := Fixtures.plain_host) "age" Unordered.ages
     = Resolved (Some Unordered.ageless)
  /\ QueryBuilder.min (host := Fixtures.plain_host) "age" Unordered.ages
     = Resolved (Some Unordered.ageless)
  /\ In Unordered.aged_two Unordered.ages
  /\ gt (host := Fixtures.plain_host) (prop Unordered.aged_two "age")
        (prop Unordered.aged_one "age") = true
  /\ gt (host := Fixtures.plain_host) (prop Unordered.ageless "age")
        (prop Unordered.aged_two "age") = false
  /\ strict_eq (prop Unordered.ageless "age")
               (prop Unordered.aged_two "age") = false.
Proof.
  repeat split; try reflexivity; simpl; tauto.
Qed.

(** Two people share the least [departmentId]: the first of them, Alice,
    is the minimum. *)
Lemma extremum_ties_go_to_earliest_witness :
  QueryBuilder.max (host := Fixtures.plain_host) "departmentId" Fixtures.data
  = Resolved (Some Fixtures.Bob)
  /\ earliest_extremum (gt (host := Fixtures.plain_host)) "departmentId"
       Fixtures.data Fixtures.Bob
  /\ QueryBuilder.min (host := Fixtures.plain_host) "departmentId"
       Fixtures.data
     = Resolved (Some Fixtures.Alice)
  /\ earliest_extremum (lt (host := Fixtures.plain_host)) "departmentId"
       Fixtures.data Fixtures.Alice.
Proof.
  destruct (extremum_ties_go_to_earliest (host := Fixtures.plain_host)
              "departmentId" Fixtures.data)
    as (hi & lo & Ehi & Xhi & Elo & Xlo).
  - discriminate.
  - vm_compute. reflexivity.
  - assert (Some hi = Some Fixtures.Bob) as Hhi
        by (injection Ehi as <-; reflexivity).
    assert (Some lo = Some Fixtures.Alice) as Hlo
        by (injection Elo as <-; reflexivity).
    injection Hhi as ->. injection Hlo as ->.
    auto.
Defined.

Section SortProperties.
Context {A : Type}.
Variable comparefn : A -> A -> Z.

Lemma sort_insert_Permutation (x : A) (sorted : list A) :
  Permutation (sort_insert comparefn x sorted) (x :: sorted).
Proof.
  induction sorted as [|y rest IH]; simpl; [reflexivity|].
  destruct (0 <? comparefn x y)%Z; [|reflexivity].
  rewrite IH. apply perm_swap.
Qed.

Lemma sort_Permutation (arr : list A) : Permutation (sort comparefn arr) arr.
Proof.
  induction arr as [|x arr IH]; simpl; [constructor|].
  rewrite sort_insert_Permutation. now constructor.
Qed.

Section Sorted.
Variable precedes : A -> A -> Prop.
Variable whole : list A.

Hypothesis not_behind :
  forall a b, In a whole -> In b whole ->
              (comparefn a b <= 0)%Z -> precedes a b.
Hypothesis behind :
  forall a b, In a whole -> In b whole ->
              (0 < comparefn a b)%Z -> precedes b a.
Hypothesis precedes_transitive :
  forall a b c, In a whole -> In b whole -> In c whole ->
                precedes a b -> precedes b c -> precedes a c.

Lemma sort_insert_StronglySorted (x : A) (sorted : list A) :
  In x whole -> incl sorted whole ->
  StronglySorted precedes sorted ->
  StronglySorted precedes (sort_insert comparefn x sorted).
Proof.
  intros Hx Hincl Hsorted.
  induction Hsorted as [|y rest Hrest IH Hy]; simpl.
  - repeat constructor.
  - assert (Hyw : In y whole) by (apply Hincl; now left).
    assert (Hrw : incl rest whole)
      by (intros z Hz; apply Hincl; now right).
    destruct (0 <? comparefn x y)%Z eqn:E.
    + apply Z.ltb_lt in E. constructor; [now apply IH|].
      apply Forall_forall. intros z Hz.
      apply (Permutation_in _ (sort_insert_Permutation x rest)) in Hz.
      destruct Hz as [<-|Hz].
      * now apply behind.
      * rewrite Forall_forall in Hy. now apply Hy.
    + apply Z.ltb_ge in E.
      constructor; [now constructor|].
      constructor; [now apply not_behind|].
      rewrite Forall_forall in *. intros z Hz.
      apply precedes_transitive with (b := y); auto.
Qed.

Lemma sort_StronglySorted (arr : list A) :
  incl arr whole -> StronglySorted precedes (sort comparefn arr).
Proof.
  induction arr as [|x arr IH]; intros Hincl; simpl; [constructor|].
  apply sort_insert_StronglySorted.
  - apply Hincl. now left.
  - intros z Hz. apply Hincl. right.
    now apply (Permutation_in _ (sort_Permutation arr)).
  - apply IH. intros z Hz. apply Hincl. now right.
Qed.
End Sorted.
End SortProperties.

Lemma slice_copy {A : Type} (arr : list A) :
  slice arr PrimFloat.zero None = arr.
Proof.
  unfold slice.
  change (ToIntegerOrInfinity PrimFloat.zero) with (Integer 0).
  unfold relative_index. simpl (0 <? 0)%Z. cbv iota.
  rewrite Z.min_l by lia.
  change (Z.to_nat 0) with 0%nat. rewrite skipn_O.
  rewrite Z.sub_0_r, Nat2Z.id. apply firstn_all.
Qed.

Section OrderByProperties.
Context {host : Host} {T : Type} `{Keyed T}.

Lemma compare_reversed (key : string) (a b : T) :
  QueryBuilder.compare key true a b
  = (- QueryBuilder.compare key false a b)%Z.
Proof.
  unfold QueryBuilder.compare.
  destruct (strict_eq (prop a key) (prop b key)); [reflexivity|].
  destruct (gt (prop a key) (prop b key)); reflexivity.
Qed.

(** The order [orderBy] promises between an earlier and a later item of
    its result. *)
Lemma orderBy_StronglySorted (key : string) (descending : bool)
      (items : list T) :
  totally_ordered (map (fun i => prop i key) items) = true ->
  StronglySorted
    (fun a b => if descending
                then lt (prop a key) (prop b key) = false
                else gt (prop a key) (prop b key) = false)
    (QueryBuilder.orderBy key descending items).
Proof.
  intros Hall.
  assert (Hv : forall a, In a items ->
                         In (prop a key) (map (fun i => prop i key) items))
    by (intros a Ha; now apply (in_map (fun i => prop i key))).
  unfold QueryBuilder.orderBy. rewrite slice_copy.
  apply sort_StronglySorted with (whole := items);
    [| | |apply incl_refl].
  - intros a b Ha Hb Hc. unfold QueryBuilder.compare in Hc.
    destruct (strict_eq (prop a key) (prop b key)) eqn:Eeq.
    + destruct (strict_eq_not_lt _ _ Hall (Hv a Ha) (Hv b Hb) Eeq)
        as [Hab Hba].
      destruct descending; [exact Hab|exact Hba].
    + destruct (gt (prop a key) (prop b key)) eqn:Egt;
        destruct descending; try (exfalso; lia); try reflexivity.
      apply (lt_asymmetric _ _ Hall); auto.
  - intros a b Ha Hb Hc. unfold QueryBuilder.compare in Hc.
    destruct (strict_eq (prop a key) (prop b key)) eqn:Eeq;
      [exfalso; lia|].
    destruct (gt (prop a key) (prop b key)) eqn:Egt;
      destruct descending; try (exfalso; lia).
    + unfold gt. apply (lt_asymmetric _ _ Hall); auto.
    + exact Egt.
  - intros a b c Ha Hb Hc Hab Hbc. destruct descending.
    + apply (not_lt_transitive _ (prop b key) _ Hall); auto.
    + unfold gt in *.
      apply (not_lt_transitive _ (prop b key) _ Hall); auto.
Qed.
End OrderByProperties.

Section OrderByClaim.
Context {host : Host} {T : Type} `{Keyed T}.

(** C7: [orderBy(key, descending)] wraps a permutation of the items; when
    the values of the named field are totally ordered by [<], [>] and
    [===], no item of it has a greater field value than a later one (no
    smaller one, when [descending]); the descending comparator is the
    ascending one with each outcome negated, so ties keep their order and
    the result is not the ascending result reversed; ages 25, 35, 30 come
    out as 35, 30, 25. *)
Theorem orderBy_sorts_by_field (key : string) (descending : bool)
        (items : list T) :
  Permutation
    (QueryBuilder.toArray (QueryBuilder.orderBy key descending items))
    items
  /\ (totally_ordered (map (fun i => prop i key) items) = true ->
      StronglySorted
        (fun a b => if descending
                    then lt (prop a key) (prop b key) = false
                    else gt (prop a key) (prop b key) = false)
        (QueryBuilder.toArray (QueryBuilder.orderBy key descending items)))
  /\ (forall a b : T,
        QueryBuilder.compare key true a b
        = (- QueryBuilder.compare key false a b)%Z)
  /\ map Fixtures.age
         (QueryBuilder.orderBy (host := Fixtures.plain_host) "age" true
            Fixtures.by_age)
     = [35%float; 30%float; 25%float]
  /\ QueryBuilder.orderBy (host := Fixtures.plain_host) "departmentId" true
       Fixtures.data
     = [Fixtures.Bob; Fixtures.Alice; Fixtures.Charlie]
  /\ rev (QueryBuilder.orderBy (host := Fixtures.plain_host)
            "departmentId" false Fixtures.data)
     = [Fixtures.Bob; Fixtures.Charlie; Fixtures.Alice].
Proof.
  split.
  - unfold QueryBuilder.toArray, QueryBuilder.orderBy.
    rewrite slice_copy. apply sort_Permutation.
  - split; [intros Hall; now apply orderBy_StronglySorted|].
    split; [apply compare_reversed|].
    repeat split; reflexivity.
Qed.
End OrderByClaim.

(** The descending order of the ages 25, 35, 30. *)
Lemma orderBy_sorts_by_field_witness :
  totally_ordered (host := Fixtures.plain_host)
    (map (fun i => prop i "age") Fixtures.by_age) = true
  /\ StronglySorted
       (fun a b => lt (host := Fixtures.plain_host)
                      (prop a "age") (prop b "age") = false)
       (QueryBuilder.orderBy (host := Fixtures.plain_host) "age" true
          Fixtures.by_age).
Proof.
  split; [vm_compute; reflexivity|].
  apply (orderBy_sorts_by_field (host := Fixtures.plain_host)
           "age" true Fixtures.by_age).
  vm_compute. reflexivity.
Defined.

Section SubsequenceFacts.
Context {A : Type}.

Lemma Subsequence_nil_l (l : list A) : Subsequence [] l.
Proof. induction l; now constructor. Qed.

Lemma Subsequence_app_r (l1 l2 r : list A) :
  Subsequence l1 l2 -> Subsequence l1 (l2 ++ r).
Proof.
  induction 1; simpl; try now constructor.
  apply Subsequence_nil_l.
Qed.

Lemma Subsequence_snoc (l1 l2 : list A) (x : A) :
  Subsequence l1 l2 -> Subsequence (l1 ++ [x]) (l2 ++ [x]).
Proof. induction 1; simpl; repeat constructor; assumption. Qed.
End SubsequenceFacts.

Section FindAndUpdate.
Context {A : Type}.
Variables (p : A -> bool) (f : A -> A).

Lemma find_and_update_None (arr : list A) :
  find_and_update p f arr = None <-> existsb p arr = false.
Proof.
  induction arr as [|a rest IH]; simpl; [tauto|].
  destruct (p a); simpl; [split; discriminate|].
  destruct (find_and_update p f rest); simpl in *.
  - split; [discriminate|]. intros E. apply IH in E. discriminate.
  - tauto.
Qed.

Lemma find_and_update_Some (arr arr' : list A) :
  find_and_update p f arr = Some arr' ->
  exists l1 a l2,
    arr = l1 ++ a :: l2
    /\ existsb p l1 = false
    /\ p a = true
    /\ arr' = l1 ++ f a :: l2.
Proof.
  revert arr'. induction arr as [|a rest IH]; simpl; intros arr' E;
    [discriminate|].
  destruct (p a) eqn:Ea.
  - injection E as <-. exists [], a, rest. now repeat split.
  - destruct (find_and_update p f rest) as [rest'|]; [|discriminate].
    injection E as <-.
    destruct (IH rest' eq_refl) as (l1 & b & l2 & -> & H1 & Hb & ->).
    exists (a :: l1), b, l2. simpl. rewrite Ea. now repeat split.
Qed.
End FindAndUpdate.

Lemma ForallOrdPairs_snoc {A : Type} (R : A -> A -> Prop) (l : list A) (x : A) :
  ForallOrdPairs R l -> Forall (fun a => R a x) l ->
  ForallOrdPairs R (l ++ [x]).
Proof.
  induction 1 as [|a l Ha Hl IH]; intros Hx; simpl.
  - repeat constructor.
  - inversion Hx; subst. constructor.
    + apply Forall_app. split; [assumption|now repeat constructor].
    + now apply IH.
Qed.

Section GroupByProperties.
Context {T : Type}.
Variable keySelector : T -> value.

(** One more item, as the reducer of [groupBy] treats it. *)
Lemma groupBy_snoc (items : list T) (item : T) :
  QueryBuilder.groupBy keySelector (items ++ [item])
  = match find_and_update
            (fun g => strict_eq (key g) (keySelector item))
            (fun g => mkGroup (key g) (group g ++ [item]))
            (QueryBuilder.groupBy keySelector items) with
    | Some groups' => groups'
    | None => QueryBuilder.groupBy keySelector items
                ++ [mkGroup (keySelector item) [item]]
    end.
Proof.
  unfold QueryBuilder.groupBy. rewrite fold_left_app. simpl.
  match goal with
  | |- match find_and_update ?p ?f ?l with _ => _ end = _ =>
      replace (find_and_update p f l)
        with (find_and_update
                (fun g => strict_eq (key g) (keySelector item))
                (fun g => mkGroup (key g) (group g ++ [item])) l)
  end; [reflexivity|].
  generalize (fold_left
    (fun groups item0 =>
       match find_and_update
               (fun '(mkGroup g_key _) => strict_eq g_key (keySelector item0))
               (fun '(mkGroup g_key g_group) =>
                  mkGroup g_key (g_group ++ [item0])) groups with
       | Some groups' => groups'
       | None => groups ++ [mkGroup (keySelector item0) [item0]]
       end) items []).
  intros l. induction l as [|[k g] l IH]; simpl; [reflexivity|].
  now rewrite IH.
Qed.

Lemma first_seen_keys_snoc (keys : list value) (k : value) :
  first_seen_keys (keys ++ [k])
  = if existsb (fun k' => strict_eq k' k) (first_seen_keys keys)
    then first_seen_keys keys
    else first_seen_keys keys ++ [k].
Proof. unfold first_seen_keys. now rewrite fold_left_app. Qed.

End GroupByProperties.

Section GroupByClaim.
Context {T : Type}.
Variable keySelector : T -> value.

Lemma existsb_key (k : value) (groups : list (GroupRecord (list T))) :
  existsb (fun k' => strict_eq k' k) (map key groups)
  = existsb (fun g => strict_eq (key g) k) groups.
Proof.
  induction groups as [|g groups IH]; simpl; [reflexivity|].
  now rewrite IH.
Qed.

Lemma partitions_more (items : list T) (item : T)
      (groups : list (GroupRecord (list T))) :
  partitions keySelector items groups ->
  partitions keySelector (items ++ [item])
    match find_and_update
            (fun g => strict_eq (key g) (keySelector item))
            (fun g => mkGroup (key g) (group g ++ [item]))
            groups with
    | Some groups' => groups'
    | None => groups ++ [mkGroup (keySelector item) [item]]
    end.
Proof.
  intros (Hperm & Hsub & Hkeys & Hopen & Hdistinct).
  destruct (find_and_update _ _ groups) as [groups'|] eqn:E.
  - apply find_and_update_Some in E.
    destruct E as (l1 & a & l2 & -> & Hl1 & Ha & ->).
    assert (Ekeys : map key (l1 ++ mkGroup (key a) (group a ++ [item]) :: l2)
                    = map key (l1 ++ a :: l2))
      by (now rewrite !map_app).
    split; [|split; [|split; [|split]]].
    + rewrite <- Hperm, !map_app, !concat_app. simpl.
      rewrite <- !app_assoc. do 2 apply Permutation_app_head.
      simpl. apply Permutation_cons_append.
    + rewrite Forall_app in *. destruct Hsub as [H1 H2].
      inversion H2 as [|? ? Hasub H2']; subst.
      split; [|constructor].
      * eapply Forall_impl; [|exact H1].
        intros g Hg. now apply Subsequence_app_r.
      * simpl. now apply Subsequence_snoc.
      * eapply Forall_impl; [|exact H2'].
        intros g Hg. now apply Subsequence_app_r.
    + rewrite Ekeys, (map_app keySelector). simpl (map keySelector [item]).
      rewrite first_seen_keys_snoc.
      rewrite <- Hkeys, existsb_key, existsb_app. simpl.
      now rewrite Ha, orb_true_r.
    + rewrite Forall_app in *. destruct Hopen as [H1 H2].
      inversion H2 as [|? ? (x & rest & Eg & Ek & Hrest) H2']; subst.
      split; [exact H1|]. constructor; [|exact H2'].
      exists x, (rest ++ [item]). simpl. rewrite Eg.
      split; [reflexivity|]. split; [exact Ek|].
      apply Forall_app. split; [exact Hrest|]. now repeat constructor.
    + now rewrite Ekeys.
  - apply find_and_update_None in E.
    split; [|split; [|split; [|split]]].
    + rewrite map_app, concat_app. simpl.
      now apply Permutation_app_tail.
    + apply Forall_app. split.
      * eapply Forall_impl; [|exact Hsub].
        intros g Hg. now apply Subsequence_app_r.
      * constructor; [|constructor]. simpl.
        apply (@Subsequence_snoc T [] items item (Subsequence_nil_l items)).
    + rewrite !map_app. simpl (map keySelector [item]).
      rewrite first_seen_keys_snoc.
      now rewrite <- Hkeys, existsb_key, E.
    + apply Forall_app. split; [exact Hopen|].
      constructor; [|constructor].
      exists item, []. now repeat split.
    + rewrite map_app. simpl. apply ForallOrdPairs_snoc;
        [exact Hdistinct|].
      apply Forall_forall. intros k Hk.
      apply in_map_iff in Hk. destruct Hk as (g & <- & Hg).
      rewrite <- not_true_iff_false. intros Hkk.
      assert (existsb (fun g => strict_eq (key g) (keySelector item)) groups
              = true) as Hex
          by (apply existsb_exists; now exists g).
      now rewrite E in Hex.
Qed.

(** C2: [groupBy(f).toArray()] partitions the sequence: the groups'
    items, concatenated in group order, are a permutation of the
    sequence, so each item is in exactly one group; each group keeps its
    items in the order of the source; the groups come in first-seen-key
    order, each opened by its first item, and no two of them have keys
    that are [===]. *)
Theorem groupBy_partitions_sequence (S : list T) :
  let groups := QueryBuilder.toArray (QueryBuilder.groupBy keySelector S) in
  Permutation (List.concat (map group groups)) S
  /\ Forall (fun g => Subsequence (group g) S) groups
  /\ map key groups = first_seen_keys (map keySelector S)
  /\ Forall (opened_by keySelector) groups
  /\ ForallOrdPairs (fun k1 k2 => strict_eq k1 k2 = false)
       (map key groups).
Proof.
  unfold QueryBuilder.toArray. cbv zeta.
  change (partitions keySelector S (QueryBuilder.groupBy keySelector S)).
  induction S as [|item items IH] using rev_ind.
  - repeat split; constructor.
  - rewrite groupBy_snoc. now apply partitions_more.
Qed.
End GroupByClaim.

(** *** [SameValueZero] is an equivalence *)

Section SameValueZeroFacts.

Lemma SFeqb_true (a b : spec_float) :
  SFeqb a b = true ->
  match a, b with
  | S754_zero _, S754_zero _ => True
  | S754_infinity s1, S754_infinity s2 => s1 = s2
  | S754_finite s1 m1 e1, S754_finite s2 m2 e2 =>
      s1 = s2 /\ m1 = m2 /\ e1 = e2
  | _, _ => False
  end.
Proof.
  unfold SFeqb, SFcompare.
  destruct a as [sa|sa| |sa ma ea], b as [sb|sb| |sb mb eb];
    try discriminate; try (destruct sa; discriminate);
    try (destruct sb; discriminate); try (intros _; exact I).
  - destruct sa, sb; try discriminate; reflexivity.
  - destruct sa, sb; try discriminate;
      destruct (Z.compare ea eb) eqn:Ee; try discriminate;
      apply Z.compare_eq in Ee; subst eb;
      destruct (Pos.compare_cont Eq ma mb) eqn:Em; try discriminate;
      apply Pos.compare_eq in Em; subst mb; intros _; auto.
Qed.

Lemma SFeqb_refl (a : spec_float) : a <> S754_nan -> SFeqb a a = true.
Proof.
  unfold SFeqb, SFcompare.
  destruct a as [sa|sa| |sa ma ea]; try reflexivity.
  - destruct sa; reflexivity.
  - contradiction.
  - intros _. destruct sa; rewrite Z.compare_refl;
      change (Pos.compare_cont Eq ma ma) with (Pos.compare ma ma);
      now rewrite Pos.compare_refl.
Qed.

Lemma SFeqb_congruent (a b c : spec_float) :
  SFeqb a b = true -> SFeqb a c = SFeqb b c.
Proof.
  intros Hab. apply SFeqb_true in Hab.
  destruct a as [sa|sa| |sa ma ea], b as [sb|sb| |sb mb eb];
    try contradiction.
  - destruct c; reflexivity.
  - now subst sb.
  - destruct Hab as (-> & -> & ->). reflexivity.
Qed.

Lemma SFeqb_symmetric (a b : spec_float) : SFeqb a b = SFeqb b a.
Proof.
  destruct (SFeqb a b) eqn:Hab, (SFeqb b a) eqn:Hba; try reflexivity.
  - rewrite <- (SFeqb_congruent a b a Hab) in Hba.
    rewrite SFeqb_refl in Hba; [discriminate|].
    intros ->. discriminate.
  - rewrite <- (SFeqb_congruent b a b Hba) in Hab.
    rewrite SFeqb_refl in Hab; [discriminate|].
    intros ->. discriminate.
Qed.

Lemma eqb_congruent (x y z : float) :
  PrimFloat.eqb x y = true -> PrimFloat.eqb x z = PrimFloat.eqb y z.
Proof. rewrite !FloatAxioms.eqb_spec. apply SFeqb_congruent. Qed.

Lemma eqb_symmetric (x y : float) : PrimFloat.eqb x y = PrimFloat.eqb y x.
Proof. rewrite !FloatAxioms.eqb_spec. apply SFeqb_symmetric. Qed.

Lemma eqb_is_nan_l (x y : float) :
  PrimFloat.is_nan x = true -> PrimFloat.eqb x y = false.
Proof.
  unfold PrimFloat.is_nan. rewrite negb_true_iff.
  intros Hx. destruct (PrimFloat.eqb x y) eqn:E; [|reflexivity].
  rewrite (eqb_congruent x y x E), eqb_symmetric in Hx.
  now rewrite E in Hx.
Qed.

Lemma SameValueZero_symmetric (a b : value) :
  SameValueZero a b = SameValueZero b a.
Proof.
  destruct a, b; simpl; try reflexivity.
  - now destruct b, b0.
  - now rewrite andb_comm, eqb_symmetric.
  - apply String.eqb_sym.
  - apply Nat.eqb_sym.
Qed.

Lemma SameValueZero_congruent (a b c : value) :
  SameValueZero a b = true -> SameValueZero a c = SameValueZero b c.
Proof.
  destruct a, b; try discriminate; try reflexivity.
  - unfold SameValueZero, strict_eq. intros E.
    apply Bool.eqb_prop in E. now subst.
  - unfold SameValueZero. intros E.
    destruct c; try reflexivity.
    destruct (PrimFloat.is_nan x) eqn:Nx, (PrimFloat.is_nan x0) eqn:Ny;
      cbn [andb] in E |- *.
    + destruct (PrimFloat.is_nan x1); [reflexivity|].
      now rewrite !eqb_is_nan_l.
    + now rewrite eqb_is_nan_l in E.
    + rewrite eqb_symmetric, eqb_is_nan_l in E; [discriminate|exact Ny].
    + now apply eqb_congruent.
  - unfold SameValueZero, strict_eq. intros E.
    apply String.eqb_eq in E. now subst.
  - unfold SameValueZero, strict_eq. intros E.
    apply Nat.eqb_eq in E. now subst.
Qed.

Lemma SameValueZero_normalize_key (k k' : value) :
  SameValueZero (normalize_key k) k' = SameValueZero k k'.
Proof.
  destruct k; try reflexivity.
  unfold normalize_key.
  destruct (is_negative_zero x) eqn:Ez; [|reflexivity].
  symmetry. apply SameValueZero_congruent.
  unfold is_negative_zero in Ez. apply andb_true_iff in Ez.
  destruct Ez as [Ez _]. unfold PrimFloat.is_zero in Ez.
  unfold SameValueZero. rewrite Ez. now destruct (_ && _).
Qed.
End SameValueZeroFacts.

Section ToGroupProperties.
Context {T G : Type}.
Variable keySelector : T -> value.
Variable groupSelector : value -> list T -> G.

Lemma is_not_NaN_SameValueZero (k' k : value) :
  is_not_NaN k = true -> SameValueZero k' k = strict_eq k' k.
Proof.
  destruct k', k; simpl; try reflexivity.
  intros Hk. apply negb_true_iff in Hk. now rewrite Hk, andb_false_r.
Qed.

(** The entries of the [Map] that [toGroup] fills stand for the group
    records that [groupBy] accumulates. *)
Lemma toGroup_step (groups : list (GroupRecord (list T))) (item : T) :
  is_not_NaN (keySelector item) = true ->
  Map_set (map (fun g => (normalize_key (key g), group g)) groups)
    (keySelector item)
    (match Map_get (map (fun g => (normalize_key (key g), group g)) groups)
                   (keySelector item) with
     | Some g => g
     | None => []
     end ++ [item])
  = map (fun g => (normalize_key (key g), group g))
      match find_and_update
              (fun '(mkGroup g_key _) => strict_eq g_key (keySelector item))
              (fun '(mkGroup g_key g_group) =>
                 mkGroup g_key (g_group ++ [item]))
              groups with
      | Some groups' => groups'
      | None => groups ++ [mkGroup (keySelector item) [item]]
      end.
Proof.
  intros Hk.
  induction groups as [|[k g] groups IH]; simpl; [reflexivity|].
  rewrite SameValueZero_normalize_key, (is_not_NaN_SameValueZero k _ Hk).
  destruct (strict_eq k (keySelector item)); simpl; [reflexivity|].
  rewrite IH.
  now destruct (find_and_update _ _ groups).
Qed.

Lemma toGroup_fill (items : list T) (groups : list (GroupRecord (list T))) :
  Forall (fun item => is_not_NaN (keySelector item) = true) items ->
  fold_left (fun groupsMap item =>
               let key := keySelector item in
               let group := match Map_get groupsMap key with
                            | Some g => g
                            | None => []
                            end in
               Map_set groupsMap key (group ++ [item]))
            items (map (fun g => (normalize_key (key g), group g)) groups)
  = map (fun g => (normalize_key (key g), group g))
      (fold_left (fun groups item =>
                    let key := keySelector item in
                    match find_and_update
                            (fun '(mkGroup g_key _) => strict_eq g_key key)
                            (fun '(mkGroup g_key g_group) =>
                               mkGroup g_key (g_group ++ [item]))
                            groups with
                    | Some groups' => groups'
                    | None => groups ++ [mkGroup key [item]]
                    end)
                 items groups).
Proof.
  intros Hkeys. revert groups.
  induction Hkeys as [|item items Hitem _ IH]; intros groups;
    [reflexivity|].
  simpl fold_left. rewrite <- IH. f_equal.
  now apply toGroup_step.
Qed.

Lemma toGroup_emit (groups : list (GroupRecord (list T)))
      (emitted : list (GroupRecord G)) :
  fold_left (fun groups '(key, group) =>
               groups ++ [mkGroup key (groupSelector key group)])
            (map (fun g => (normalize_key (key g), group g)) groups) emitted
  = emitted ++ map (shaped groupSelector) groups.
Proof.
  revert emitted.
  induction groups as [|g groups IH]; intros emitted; simpl.
  - now rewrite app_nil_r.
  - rewrite IH, <- app_assoc. reflexivity.
Qed.

(** C3, as amended: when no key is [NaN], [toGroup(f, g)] resolves to the
    group records of [groupBy(f)], in the same order, each with its key as
    a [Map] stores it ([-0] as [+0]) and with [g(key, items)] in place of
    the items that [groupBy] collected. *)
Theorem toGroup_shapes_groupBy (items : list T) :
  Forall (fun item => is_not_NaN (keySelector item) = true) items ->
  QueryBuilder.toGroup keySelector groupSelector items
  = Resolved
      (map (shaped groupSelector)
         (QueryBuilder.toArray (QueryBuilder.groupBy keySelector items))).
Proof.
  intros Hkeys.
  pose proof (toGroup_fill items [] Hkeys) as Hfill.
  unfold QueryBuilder.toGroup, QueryBuilder.toArray, QueryBuilder.groupBy.
  simpl (map _ []) in Hfill. cbv zeta in Hfill |- *.
  rewrite Hfill, toGroup_emit. reflexivity.
Qed.
End ToGroupProperties.

(** The departments of the test suite, gathered either way. *)
Lemma toGroup_shapes_groupBy_witness :
  QueryBuilder.toGroup (fun p => VNum (Fixtures.departmentId p))
    (fun k users => (k, users)) Fixtures.data
  = Resolved
      [mkGroup (VNum 1) (VNum 1, [Fixtures.Alice; Fixtures.Charlie]);
       mkGroup (VNum 2) (VNum 2, [Fixtures.Bob])].
Proof.
  rewrite (toGroup_shapes_groupBy (fun p => VNum (Fixtures.departmentId p))
             (fun k users => (k, users)) Fixtures.data).
  - reflexivity.
  - repeat constructor.
Defined.

(** Two items whose key is [NaN]: [groupBy] opens a group for each,
    [toGroup] gathers them in one. *)
Lemma toGroup_groupBy_differ_on_NaN :
  QueryBuilder.toGroup (fun x => x) (fun _ items => items)
    [VNum PrimFloat.nan; VNum PrimFloat.nan]
  = Resolved [mkGroup (VNum PrimFloat.nan)
                [VNum PrimFloat.nan; VNum PrimFloat.nan]]
  /\ QueryBuilder.toArray
       (QueryBuilder.groupBy (fun x => x)
          [VNum PrimFloat.nan; VNum PrimFloat.nan])
     = [mkGroup (VNum PrimFloat.nan) [VNum PrimFloat.nan];
        mkGroup (VNum PrimFloat.nan) [VNum PrimFloat.nan]]
  /\ QueryBuilder.toGroup (fun x => x) (fun _ items => items)
       [VNum PrimFloat.nan; VNum PrimFloat.nan]
     <> Resolved
          (map (fun g => mkGroup (key g) (group g))
             (QueryBuilder.toArray
                (QueryBuilder.groupBy (fun x => x)
                   [VNum PrimFloat.nan; VNum PrimFloat.nan]))).
Proof.
  split; [reflexivity|]. split; [reflexivity|].
  vm_compute. discriminate.
Qed.

Section InstanceProperties.
Import Instances.
Context {host : Host}.
Variable item : nat -> Type.

Lemma ty_eq_dec_refl (t : ty) : ty_eq_dec t t = left eq_refl.
Proof.
  destruct (ty_eq_dec t t) as [e|n]; [|contradiction].
  f_equal. apply UIP_dec. exact ty_eq_dec.
Qed.

Lemma nth_error_set_nth_same {A} (n : nat) (x : A) (l : list A) :
  n < List.length l -> nth_error (set_nth n x l) n = Some x.
Proof.
  revert n. induction l as [|a l IH]; intros [|n] Hn; simpl in *;
    try lia; [reflexivity|].
  apply IH. lia.
Qed.

Lemma nth_error_set_nth_other {A} (n a : nat) (x : A) (l : list A) :
  a <> n -> nth_error (set_nth n x l) a = nth_error l a.
Proof.
  revert n a. induction l as [|y l IH]; intros [|n] [|a] Hne; simpl;
    try reflexivity; try contradiction.
  apply IH. lia.
Qed.

Lemma length_set_nth {A} (n : nat) (x : A) (l : list A) :
  List.length (set_nth n x l) = List.length l.
Proof.
  revert n. induction l as [|a l IH]; intros [|n]; simpl; auto.
Qed.

Lemma set_nth_last {A} (x y : A) (l : list A) :
  set_nth (List.length l) x (l ++ [y]) = l ++ [x].
Proof. induction l as [|a l IH]; simpl; [reflexivity|now rewrite IH]. Qed.

Lemma ltb_length_last {A} (x : A) (l : list A) :
  Nat.ltb (List.length l) (List.length (l ++ [x])) = true.
Proof. apply Nat.ltb_lt. rewrite length_app. simpl. lia. Qed.

Lemma nth_error_last {A} (x : A) (l more : list A) :
  nth_error (l ++ x :: more) (List.length l) = Some x.
Proof. rewrite nth_error_app2 by lia. now rewrite Nat.sub_diag. Qed.

(** *** Reads *)

Lemma holds_read_array {h : heap item} {t : ty} {arr : aref t}
      {l : list (elt item t)} :
  holds h arr l -> read_array arr h = Some (l, h).
Proof.
  unfold holds, read_array. intros ->. now rewrite ty_eq_dec_refl.
Qed.

Lemma wraps_get_items {h : heap item} {t : ty} {q : ref t} {arr : aref t} :
  wraps h q arr -> get_items q h = Some (arr, h).
Proof.
  unfold wraps, get_items. intros ->. now rewrite ty_eq_dec_refl.
Qed.

(** *** Growth of the store *)

Lemma extends_holds {h h' : heap item} {t : ty} {arr : aref t}
      {l : list (elt item t)} :
  extends h h' -> holds h arr l -> holds h' arr l.
Proof.
  unfold holds. intros (ma & me & Ea & Ee) Harr. rewrite Ea.
  rewrite nth_error_app1; [exact Harr|].
  apply nth_error_Some. now rewrite Harr.
Qed.

Lemma extends_wraps {h h' : heap item} {t : ty} {q : ref t} {arr : aref t} :
  extends h h' -> wraps h q arr -> wraps h' q arr.
Proof.
  unfold wraps. intros (ma & me & Ea & Ee) Hq. rewrite Ee.
  rewrite nth_error_app1; [exact Hq|].
  apply nth_error_Some. now rewrite Hq.
Qed.

Lemma extends_transitive {h1 h2 h3 : heap item} :
  extends h1 h2 -> extends h2 h3 -> extends h1 h3.
Proof.
  intros (ma & me & Ea & Ee) (ma' & me' & Ea' & Ee').
  exists (ma ++ ma'), (me ++ me').
  rewrite Ea', Ee', Ea, Ee, !app_assoc. now split.
Qed.

Lemma extends_lengths {h h' : heap item} :
  extends h h' ->
  List.length (arrays h) <= List.length (arrays h')
  /\ List.length (engines h) <= List.length (engines h').
Proof.
  intros (ma & me & Ea & Ee). rewrite Ea, Ee, !length_app. lia.
Qed.

(** A call that ends in the store of [h] with arrays added, the last of
    them holding [result], and one engine added over that array. *)
Lemma added_engine_branches {t r : ty} (m : M item (ref r)) (h : heap item)
      (this : ref t) (arr : aref t) (S : list (elt item t))
      (more : list (array item)) (result : list (elt item r)) :
  wraps h this arr -> holds h arr S ->
  m h = Some (List.length (engines h),
              Heap (arrays h ++ more ++ [Array r result])
                   (engines h
                      ++ [Instance r (List.length (arrays h ++ more))])) ->
  branches m h this arr S result.
Proof.
  intros Hthis Harr Erun.
  eexists. eexists. exists (List.length (arrays h ++ more)).
  assert (Hext : extends h
                   (Heap (arrays h ++ more ++ [Array r result])
                         (engines h
                            ++ [Instance r (List.length (arrays h ++ more))])))
    by (eexists; eexists; split; reflexivity).
  split; [exact Erun|].
  split; [exact Hext|].
  split; [lia|].
  split; [rewrite length_app; lia|].
  split; [unfold wraps; simpl; apply nth_error_last|].
  split; [unfold holds; simpl; rewrite app_assoc; apply nth_error_last|].
  split; [exact (extends_wraps Hext Hthis)|exact (extends_holds Hext Harr)].
Qed.

(** *** The calls, one by one *)

Section Receiver.
Variables (h : heap item) (t : ty) (this : ref t) (arr : aref t).
Variable S : list (elt item t).
Hypothesis Hthis : wraps h this arr.
Hypothesis Harr : holds h arr S.

Lemma from_rewrites (items : aref t) : rewrites (from this items) h this items.
Proof.
  assert (Hlt : this < List.length (engines h))
    by (apply nth_error_Some; unfold wraps in Hthis; now rewrite Hthis).
  exists (Heap (arrays h) (set_nth this (Instance t items) (engines h))).
  split.
  - unfold from, bind, set_items, ret.
    apply Nat.ltb_lt in Hlt. now rewrite Hlt.
  - split; [unfold wraps; simpl; now apply nth_error_set_nth_same|].
    split; [reflexivity|].
    split; [apply length_set_nth|].
    intros q Hq. simpl. now apply nth_error_set_nth_other.
Qed.

Lemma select_branches `{Keyed (elt item t)} (keys : list string) :
  branches (select this keys) h this arr S (QueryBuilder.select keys S).
Proof.
  apply added_engine_branches with (more := []); try assumption.
  unfold select, bind. rewrite (wraps_get_items Hthis).
  unfold Array_map, bind. rewrite (holds_read_array Harr).
  unfold new_array, new_QueryBuilder. simpl. now rewrite app_nil_r.
Qed.

Lemma where_branches (predicate : elt item t -> bool) :
  branches (where_ this predicate) h this arr S
    (QueryBuilder.where_ predicate S).
Proof.
  apply added_engine_branches with (more := []); try assumption.
  unfold where_, bind. rewrite (wraps_get_items Hthis).
  unfold Array_filter, bind. rewrite (holds_read_array Harr).
  unfold new_array, new_QueryBuilder. simpl. now rewrite app_nil_r.
Qed.

Lemma slice_branches (m : M item (ref t)) (start : float)
      (end_ : option float) :
  m = bind (get_items this)
        (fun items => bind (Array_slice items start end_)
                        (fun sliced => new_QueryBuilder sliced)) ->
  branches m h this arr S (slice S start end_).
Proof.
  intros ->.
  apply added_engine_branches with (more := []); try assumption.
  unfold bind. rewrite (wraps_get_items Hthis).
  unfold Array_slice, bind. rewrite (holds_read_array Harr).
  unfold new_array, new_QueryBuilder. simpl. now rewrite app_nil_r.
Qed.

Lemma orderBy_branches `{Keyed (elt item t)} (key : string)
      (descending : bool) :
  branches (orderBy this key descending) h this arr S
    (QueryBuilder.orderBy key descending S).
Proof.
  apply added_engine_branches with (more := []); try assumption.
  unfold orderBy, bind. rewrite (wraps_get_items Hthis).
  unfold Array_slice, bind. rewrite (holds_read_array Harr).
  unfold new_array, Array_sort, bind, read_array. simpl.
  rewrite nth_error_last, ty_eq_dec_refl. simpl.
  unfold write_array. simpl. rewrite ltb_length_last.
  unfold ret, new_QueryBuilder. simpl.
  now rewrite set_nth_last, app_nil_r.
Qed.

Lemma groupBy_branches (keySelector : elt item t -> value) :
  branches (groupBy this keySelector) h this arr S
    (QueryBuilder.groupBy keySelector S).
Proof.
  apply added_engine_branches with (more := [Array (TGroup t) []]);
    try assumption.
  set (h1 := Heap (arrays h ++ [Array (TGroup t) []])
                  (engines h
                     ++ [Instance (TGroup t) (List.length (arrays h))])).
  assert (Hext : extends h h1) by (eexists; eexists; split; reflexivity).
  assert (E0 : new_QueryBuilder_empty (t := TGroup t) h
               = Some (List.length (engines h), h1)) by reflexivity.
  unfold groupBy. unfold bind at 1. rewrite E0. cbv beta iota.
  unfold bind at 1. rewrite (wraps_get_items (extends_wraps Hext Hthis)).
  cbv beta iota.
  unfold bind at 1. rewrite (holds_read_array (extends_holds Hext Harr)).
  cbv beta iota.
  unfold bind, new_array, set_items, ret. simpl.
  rewrite ltb_length_last.
  rewrite set_nth_last, <- app_assoc, !length_app. simpl.
  reflexivity.
Qed.

Lemma join_branches (u : ty) (truthy_u : Truthy (elt item u))
      (other : aref u + ref u) (otherArr : aref u)
      (otherItems : list (elt item u))
      (keySelector : elt item t -> value)
      (otherKeySelector : elt item u -> value)
      (resultSelector : elt item t -> elt item u -> value) :
  match other with
  | inl arr => arr = otherArr
  | inr otherQuery => wraps h otherQuery otherArr
  end ->
  holds h otherArr otherItems ->
  branches (join this other keySelector otherKeySelector resultSelector)
    h this arr S
    (QueryBuilder.join otherItems keySelector otherKeySelector
       resultSelector S).
Proof.
  intros Hother Hitems.
  eapply added_engine_branches with (more := [_]); try assumption.
  unfold join. unfold bind at 1.
  assert (Eother : match other with
                   | inr otherQuery => get_items otherQuery
                   | inl arr => ret arr
                   end h = Some (otherArr, h)).
  { destruct other as [a|q]; [now subst a|].
    exact (wraps_get_items Hother). }
  rewrite Eother. unfold bind at 1. rewrite (holds_read_array Hitems).
  cbv zeta. unfold bind at 1. rewrite (wraps_get_items Hthis).
  unfold Array_map, Array_filter, bind. rewrite (holds_read_array Harr).
  unfold new_array, read_array. simpl.
  rewrite nth_error_last, ty_eq_dec_refl. simpl.
  unfold new_QueryBuilder. simpl.
  rewrite <- app_assoc. simpl. reflexivity.
Qed.

Lemma page_branches (pageIndex pageSize : float) :
  branches (page this pageIndex pageSize) h this arr S
    (QueryBuilder.page pageIndex pageSize S).
Proof.
  destruct (slice_branches (skip this (pageIndex * pageSize)%float)
              (pageIndex * pageSize)%float None eq_refl)
    as (q1 & h1 & arr1 & Erun1 & Hext1 & Hq1 & Harr1 & Hw1 & Hh1 & _).
  pose proof (extends_lengths Hext1) as [Hla1 Hle1].
  assert (Erun2 : take q1 pageSize h1
                  = Some (List.length (engines h1),
                          Heap (arrays h1
                                  ++ [Array t (QueryBuilder.page pageIndex
                                                 pageSize S)])
                               (engines h1
                                  ++ [Instance t (List.length (arrays h1))]))).
  { unfold take, bind. rewrite (wraps_get_items Hw1).
    unfold Array_slice, bind. rewrite (holds_read_array Hh1).
    reflexivity. }
  assert (Hext2 : extends h1
                    (Heap (arrays h1
                             ++ [Array t (QueryBuilder.page pageIndex
                                            pageSize S)])
                          (engines h1
                             ++ [Instance t (List.length (arrays h1))])))
    by (eexists; eexists; split; reflexivity).
  pose proof (extends_transitive Hext1 Hext2) as Hext.
  eexists. eexists. exists (List.length (arrays h1)).
  split.
  - unfold page. cbv zeta. unfold bind at 1. rewrite Erun1. exact Erun2.
  - split; [exact Hext|].
    split; [lia|].
    split; [lia|].
    split; [unfold wraps; simpl; apply nth_error_last|].
    split; [unfold holds; simpl; apply nth_error_last|].
    split; [exact (extends_wraps Hext Hthis)|exact (extends_holds Hext Harr)].
Qed.

(** C5: [from(items)] makes the receiver wrap [items] and returns the
    receiver, making no engine and no array; each of [select], [where],
    [orderBy], [skip], [take], [page], [groupBy] and [join] returns an
    engine that was not in the store, over an array that was not in the
    store, and leaves every engine and every array of the store as it was,
    so that the receiver still wraps its array and the array still holds
    its sequence. *)
Theorem from_alone_writes_to_the_receiver (keyed : Keyed (elt item t)) :
  (forall items, rewrites (from this items) h this items)
  /\ (forall keys,
        branches (select this keys) h this arr S
          (QueryBuilder.select keys S))
  /\ (forall predicate,
        branches (where_ this predicate) h this arr S
          (QueryBuilder.where_ predicate S))
  /\ (forall key descending,
        branches (orderBy this key descending) h this arr S
          (QueryBuilder.orderBy key descending S))
  /\ (forall count,
        branches (skip this count) h this arr S (QueryBuilder.skip count S))
  /\ (forall count,
        branches (take this count) h this arr S (QueryBuilder.take count S))
  /\ (forall pageIndex pageSize,
        branches (page this pageIndex pageSize) h this arr S
          (QueryBuilder.page pageIndex pageSize S))
  /\ (forall keySelector,
        branches (groupBy this keySelector) h this arr S
          (QueryBuilder.groupBy keySelector S))
  /\ (forall (u : ty) (truthy_u : Truthy (elt item u))
             (otherArr : aref u) (otherItems : list (elt item u))
             keySelector otherKeySelector resultSelector,
        holds h otherArr otherItems ->
        branches (join this (inl otherArr) keySelector otherKeySelector
                    resultSelector) h this arr S
          (QueryBuilder.join otherItems keySelector otherKeySelector
             resultSelector S))
  /\ (forall (u : ty) (truthy_u : Truthy (elt item u))
             (otherQuery : ref u) (otherArr : aref u)
             (otherItems : list (elt item u))
             keySelector otherKeySelector resultSelector,
        wraps h otherQuery otherArr ->
        holds h otherArr otherItems ->
        branches (join this (inr otherQuery) keySelector otherKeySelector
                    resultSelector) h this arr S
          (QueryBuilder.join otherItems keySelector otherKeySelector
             resultSelector S)).
Proof.
  split; [exact from_rewrites|].
  split; [exact select_branches|].
  split; [exact where_branches|].
  split; [exact orderBy_branches|].
  split; [intros count; now apply slice_branches|].
  split; [intros count; now apply slice_branches|].
  split; [exact page_branches|].
  split; [exact groupBy_branches|].
  split.
  - intros u truthy_u otherArr otherItems ks oks rs Hitems.
    now apply join_branches with (other := inl otherArr) (otherArr := otherArr).
  - intros u truthy_u otherQuery otherArr otherItems ks oks rs Hq Hitems.
    now apply join_branches
      with (other := inr otherQuery) (otherArr := otherArr).
Qed.
End Receiver.
End InstanceProperties.

(** A store with two arrays and an engine over the first, the people of
    the test suite: [from] makes the engine wrap the second array,
    [where] leaves the engine and both arrays as they are. *)
Lemma from_alone_writes_to_the_receiver_witness :
  let h := Instances.Heap (item := fun _ => Fixtures.Person)
             [Instances.Array (Instances.TItem 0) Fixtures.data;
              Instances.Array (Instances.TItem 0) [Fixtures.Bob]]
             [Instances.Instance (Instances.TItem 0) 0] in
  let this : Instances.ref (Instances.TItem 0) := 0 in
  let arr : Instances.aref (Instances.TItem 0) := 0 in
  let other : Instances.aref (Instances.TItem 0) := 1 in
  Instances.wraps h this arr
  /\ Instances.holds h arr Fixtures.data
  /\ Instances.rewrites (Instances.from this other) h this other
  /\ Instances.branches
       (Instances.where_ this (fun p => PrimFloat.ltb 25 (Fixtures.age p)))
       h this arr Fixtures.data [Fixtures.Alice; Fixtures.Charlie].
Proof.
  intros h this arr other.
  assert (Hthis : Instances.wraps h this arr) by reflexivity.
  assert (Harr : Instances.holds h arr Fixtures.data) by reflexivity.
  pose proof (from_alone_writes_to_the_receiver (host := Fixtures.plain_host)
                (fun _ => Fixtures.Person) h (Instances.TItem 0) this arr
                Fixtures.data Hthis Harr Fixtures.Person_Keyed)
    as (Hfrom & _ & Hwhere & _).
  split; [exact Hthis|].
  split; [exact Harr|].
  split; [apply Hfrom|].
  exact (Hwhere (fun p => PrimFloat.ltb 25 (Fixtures.age p))).
Defined.

Section JoinProperties.
Context {T U : Type} `{Truthy U}.

Lemma Map_get_set (m : Map U) (k0 k : value) (v : U) :
  Map_get (Map_set m k0 v) k
  = if SameValueZero k0 k then Some v else Map_get m k.
Proof.
  induction m as [|[k' v'] rest IH]; simpl.
  - now rewrite SameValueZero_normalize_key.
  - destruct (SameValueZero k' k0) eqn:E0; simpl.
    + rewrite (SameValueZero_congruent k' k0 k E0).
      now destruct (SameValueZero k0 k).
    + rewrite IH.
      destruct (SameValueZero k' k) eqn:E1,
               (SameValueZero k0 k) eqn:E2; try reflexivity.
      rewrite (SameValueZero_congruent k' k k0 E1),
        SameValueZero_symmetric, E2 in E0.
      discriminate.
Qed.

(** The lookup [join] builds holds, for a key, the last other-item
    that has it. *)
Lemma lookup_last_write_wins (otherKeySelector : U -> value)
      (otherItems : list U) (k : value) :
  Map_get (fold_left (fun m item => Map_set m (otherKeySelector item) item)
                     otherItems [])
          k
  = last_with_key otherKeySelector otherItems k.
Proof.
  unfold last_with_key.
  induction otherItems as [|o otherItems IH] using rev_ind;
    [reflexivity|].
  rewrite fold_left_app, rev_app_distr. simpl.
  now rewrite Map_get_set, IH.
Qed.

(** [join] is the join of the specification when every other-item is
    truthy and the result selector never gives [undefined]. *)
Lemma join_inner_join_when_defined
      (otherItems : list U) (keySelector : T -> value)
      (otherKeySelector : U -> value) (resultSelector : T -> U -> value)
      (items : list T) :
  Forall (fun otherItem => truthy otherItem = true) otherItems ->
  (forall item otherItem,
      strict_eq (resultSelector item otherItem) VUndefined = false) ->
  QueryBuilder.join otherItems keySelector otherKeySelector resultSelector
    items
  = inner_join (last_with_key otherKeySelector otherItems) keySelector
      resultSelector items.
Proof.
  intros Htruthy Hdefined.
  unfold QueryBuilder.join, inner_join.
  induction items as [|item items IH]; [reflexivity|].
  simpl. rewrite IH, lookup_last_write_wins.
  destruct (last_with_key otherKeySelector otherItems (keySelector item))
    as [otherItem|] eqn:E; [|reflexivity].
  assert (Hin : In otherItem otherItems).
  { unfold last_with_key in E. apply find_some in E.
    apply in_rev. tauto. }
  rewrite Forall_forall in Htruthy.
  now rewrite (Htruthy _ Hin), Hdefined.
Qed.
End JoinProperties.

(** C1: the lookup holds the key 0, mapped to the other-item 0, and the
    join of the specification has a row for the left item 0; [join] has
    none, because the matched other-item 0 is falsy.  Likewise a row whose
    result is [undefined] is left out although its key is in the
    lookup. *)
Theorem join_drops_row_of_falsy_match :
  let plus_ten := fun (item _ : value) =>
                    match item with
                    | VNum x => VNum (x + 10)%float
                    | _ => VNull
                    end in
  let same := fun v : value => v in
  let otherItems := [VNum 0; VNum 1] in
  let items := [VNum 0; VNum 1; VNum 2] in
  last_with_key same otherItems (VNum 0) = Some (VNum 0)
  /\ inner_join (last_with_key same otherItems) same plus_ten items
     = [VNum 10; VNum 11]
  /\ QueryBuilder.join otherItems same same plus_ten items = [VNum 11]
  /\ inner_join (last_with_key same [VObj 7]) (fun _ => VObj 7)
       (fun _ _ => VUndefined) [VObj 1]
     = [VUndefined]
  /\ QueryBuilder.join [VObj 7] (fun _ : value => VObj 7) same
       (fun _ _ => VUndefined) [VObj 1]
     = [].
Proof. repeat split; reflexivity. Qed.


(** ** Further properties of the operators *)

(** *** [select] *)

Section SelectProperties.
Context {T : Type} `{Keyed T}.

Lemma get_define_property (o : object) (k k' : string) (v : value) :
  get_property (define_property o k v) k'
  = if String.eqb k k' then Some v else get_property o k'.
Proof.
  induction o as [|[k0 w] rest IH]; simpl; [reflexivity|].
  destruct (String.eqb k0 k) eqn:E0; simpl.
  - apply String.eqb_eq in E0. subst k0.
    now destruct (String.eqb k k').
  - rewrite IH. destruct (String.eqb k0 k') eqn:E1; [|reflexivity].
    apply String.eqb_eq in E1. subst k0.
    now rewrite String.eqb_sym, E0.
Qed.

Lemma get_set_property (o : object) (k k' : string) (v : value) :
  get_property (set_property o k v) k'
  = if String.eqb k "__proto__" then get_property o k'
    else if String.eqb k k' then Some v else get_property o k'.
Proof.
  unfold set_property. destruct (String.eqb k "__proto__"); [reflexivity|].
  apply get_define_property.
Qed.

(** The record [select] fills for one item. *)
Lemma picked_property (item : T) (keys : list string) (o : object)
      (k : string) :
  get_property
    (fold_left (fun selectedItem key =>
                  set_property selectedItem key (prop item key)) keys o) k
  = if in_dec string_dec k keys
    then (if String.eqb k "__proto__" then get_property o k
          else Some (prop item k))
    else get_property o k.
Proof.
  revert o. induction keys as [|k0 keys IH]; intros o; [reflexivity|].
  simpl fold_left. rewrite IH, get_set_property.
  destruct (in_dec string_dec k keys) as [Hin|Hnin];
    destruct (in_dec string_dec k (k0 :: keys)) as [Hin'|Hnin'].
  - destruct (String.eqb k "__proto__") eqn:Ek; [|reflexivity].
    destruct (String.eqb k0 "__proto__") eqn:Ek0; [reflexivity|].
    destruct (String.eqb k0 k) eqn:E; [|reflexivity].
    apply String.eqb_eq in E. subst k0. congruence.
  - exfalso. apply Hnin'. now right.
  - destruct Hin' as [->|Hin']; [|contradiction].
    rewrite String.eqb_refl. now destruct (String.eqb k "__proto__").
  - destruct (String.eqb k0 "__proto__"); [reflexivity|].
    destruct (String.eqb k0 k) eqn:E; [|reflexivity].
    apply String.eqb_eq in E. exfalso. apply Hnin'. now left.
Qed.

(** X1: when [__proto__] is not among the keys, [select(...keys)] gives
    one record per item, in the order of the items; the own properties of
    the record of an item are the keys, each with the item's value at
    it. *)
Theorem select_picks_fields (keys : list string) (items : list T) :
  ~ In "__proto__"%string keys ->
  Forall2 (fun item o =>
             (forall k, In k keys -> get_property o k = Some (prop item k))
             /\ (forall k, ~ In k keys -> get_property o k = None))
          items
          (QueryBuilder.toArray (QueryBuilder.select keys items)).
Proof.
  intros Hproto.
  unfold QueryBuilder.toArray, QueryBuilder.select. cbv zeta.
  induction items as [|item items IH]; simpl; constructor; [|exact IH].
  split; intros k Hk; rewrite picked_property;
    destruct (in_dec string_dec k keys); try contradiction;
    [|reflexivity].
  destruct (String.eqb k "__proto__") eqn:E; [|reflexivity].
  apply String.eqb_eq in E. now subst k.
Qed.


End SelectProperties.

(** The names and departments of the people of the test suite: each
    record has the name of its person, and no age. *)
Lemma select_picks_fields_witness :
  Forall2 (fun item o =>
             get_property o "name" = Some (VStr (Fixtures.name item))
             /\ get_property o "age" = None)
          Fixtures.data
          (QueryBuilder.toArray
             (QueryBuilder.select ["name"%string; "departmentId"%string]
                Fixtures.data)).
Proof.
  assert (Hproto : ~ In "__proto__"%string
                     ["name"%string; "departmentId"%string])
    by (intros [E|[E|[]]]; discriminate E).
  pose proof (select_picks_fields ["name"%string; "departmentId"%string]
                Fixtures.data Hproto) as Hall.
  revert Hall. apply Forall2_impl. intros item o [Hin Hout]. split.
  - exact (Hin "name"%string (or_introl eq_refl)).
  - apply Hout. intros [E|[E|[]]]; discriminate E.
Defined.


(** *** [skip], [take] and [slice] *)

Section SliceProperties.
Context {T : Type}.

Lemma relative_index_bounds (len : Z) (i : integer_or_infinity) :
  (0 <= len -> 0 <= relative_index len i <= len)%Z.
Proof.
  intros Hlen. destruct i as [|z|]; simpl; try lia.
  destruct (z <? 0)%Z eqn:E; lia.
Qed.

(** The cut [skip(count)] and [take(count)] make in a sequence. *)
Lemma skip_take_cut (count : float) (items : list T) :
  let n := Z.to_nat (relative_index (Z.of_nat (List.length items))
                                    (ToIntegerOrInfinity count)) in
  n <= List.length items
  /\ QueryBuilder.skip count items = skipn n items
  /\ QueryBuilder.take count items = firstn n items.
Proof.
  intros n.
  pose proof (relative_index_bounds (Z.of_nat (List.length items))
                (ToIntegerOrInfinity count) (Nat2Z.is_nonneg _)) as Hk.
  assert (Hn : n <= List.length items) by (unfold n; lia).
  split; [exact Hn|].
  unfold QueryBuilder.skip, QueryBuilder.take, slice. cbv zeta.
  change (ToIntegerOrInfinity PrimFloat.zero) with (Integer 0).
  fold n. split.
  - apply firstn_all2. rewrite length_skipn. unfold n. lia.
  - assert (E0 : relative_index (Z.of_nat (List.length items)) (Integer 0)
                 = 0%Z)
      by (apply Z.min_l; lia).
    rewrite E0, Z.sub_0_r. reflexivity.
Qed.

(** X3: for every number [count], [take(count)] and [skip(count)] cut the
    sequence in two: the first followed by the second is the sequence, and
    their counts add up to its count. *)
Theorem take_then_skip_is_all (count : float) (items : list T) :
  QueryBuilder.take count items ++ QueryBuilder.skip count items = items
  /\ List.length (QueryBuilder.take count items)
     + List.length (QueryBuilder.skip count items)
     = List.length items.
Proof.
  destruct (skip_take_cut count items) as (Hn & -> & ->).
  split; [apply firstn_skipn|].
  rewrite length_firstn, length_skipn. lia.
Qed.

(** X4: a count that reads as the integer [z]: when [z] is not negative,
    [skip] leaves out the first [z] items and [take] keeps them; when [z]
    is negative, [skip] keeps the last [-z] items and [take] leaves them
    out.  A count [NaN] reads as 0. *)
Theorem skip_take_integer_count (count : float) (z : Z) (items : list T) :
  ToIntegerOrInfinity count = Integer z ->
  ((0 <= z)%Z ->
     QueryBuilder.skip count items = skipn (Z.to_nat z) items
     /\ QueryBuilder.take count items = firstn (Z.to_nat z) items)
  /\ ((z < 0)%Z ->
      QueryBuilder.skip count items
      = skipn (List.length items - Z.to_nat (- z)) items
      /\ QueryBuilder.take count items
         = firstn (List.length items - Z.to_nat (- z)) items)
  /\ QueryBuilder.skip PrimFloat.nan items = items
  /\ QueryBuilder.take PrimFloat.nan items = [].
Proof.
  intros Hz.
  destruct (skip_take_cut count items) as (_ & Hskip & Htake).
  rewrite Hz in Hskip, Htake. unfold relative_index in Hskip, Htake.
  split; [|split].
  - intros Hpos.
    assert (E : (z <? 0)%Z = false) by (apply Z.ltb_ge; lia).
    rewrite E in Hskip, Htake. rewrite Hskip, Htake.
    destruct (Z.le_ge_cases z (Z.of_nat (List.length items))) as [Hle|Hge].
    + rewrite Z.min_l by lia. now split.
    + rewrite Z.min_r by lia. rewrite Nat2Z.id.
      rewrite skipn_all, firstn_all.
      rewrite skipn_all2, firstn_all2 by lia. now split.
  - intros Hneg.
    assert (E : (z <? 0)%Z = true) by (apply Z.ltb_lt; lia).
    rewrite E in Hskip, Htake. rewrite Hskip, Htake.
    replace (Z.to_nat (Z.max (Z.of_nat (List.length items) + z) 0))
      with (List.length items - Z.to_nat (- z)) by lia.
    now split.
  - destruct (skip_take_cut PrimFloat.nan items) as (_ & -> & ->).
    change (ToIntegerOrInfinity PrimFloat.nan) with (Integer 0).
    unfold relative_index. simpl (0 <? 0)%Z. cbv iota.
    rewrite Z.min_l by lia. now split.
Qed.
End SliceProperties.

(** Two of three people skipped or taken, and one counted from the end. *)
Lemma skip_take_integer_count_witness :
  (QueryBuilder.skip 2%float Fixtures.data = [Fixtures.Charlie]
   /\ QueryBuilder.take 2%float Fixtures.data
      = [Fixtures.Alice; Fixtures.Bob])
  /\ (QueryBuilder.skip (-1)%float Fixtures.data = [Fixtures.Charlie]
      /\ QueryBuilder.take (-1)%float Fixtures.data
         = [Fixtures.Alice; Fixtures.Bob]).
Proof.
  split.
  - apply (skip_take_integer_count 2%float 2 Fixtures.data eq_refl). lia.
  - apply (skip_take_integer_count (-1)%float (-1) Fixtures.data eq_refl).
    lia.
Defined.

(** *** [where], [count], [any] and [all] *)

Section FilterProperties.
Context {T : Type}.

(** X5: a [where] after a [where] keeps the items that satisfy both
    predicates, whichever comes first. *)
Theorem where_of_where (P Q : T -> bool) (items : list T) :
  QueryBuilder.where_ Q (QueryBuilder.where_ P items)
  = QueryBuilder.where_ (fun item => P item && Q item) items
  /\ QueryBuilder.where_ Q (QueryBuilder.where_ P items)
     = QueryBuilder.where_ P (QueryBuilder.where_ Q items).
Proof.
  unfold QueryBuilder.where_. cbv zeta.
  assert (both : forall A B : T -> bool,
             filter B (filter A items)
             = filter (fun item => A item && B item) items).
  { intros A B. induction items as [|x l IH]; simpl; [reflexivity|].
    destruct (A x) eqn:EA; simpl; [|exact IH].
    destruct (B x); now rewrite IH. }
  split; [apply both|].
  rewrite !both. apply filter_ext. intros x. apply andb_comm.
Qed.

Lemma filter_all_iff (P : T -> bool) (items : list T) :
  forallb P items = true <-> filter P items = items.
Proof.
  induction items as [|x l IH]; simpl; [tauto|].
  destruct (P x) eqn:E; simpl.
  - rewrite IH. split; [now intros ->|]. intros E'. now injection E'.
  - split; [discriminate|]. intros E'.
    assert (Hlen : List.length (filter P l) <= List.length l)
      by apply filter_length_le.
    rewrite E' in Hlen. simpl in Hlen. lia.
Qed.

(** X6: [count()] after [where] is at most [count()] before, and equal to
    it exactly when [all(predicate)] is true; [all] is true of the empty
    sequence; [any()] is true exactly when the sequence has an item, and
    after [where(predicate)] exactly when some item satisfies the
    predicate. *)
Theorem count_any_all_of_where (P : T -> bool) (items : list T) :
  (exists n m,
      QueryBuilder.count (QueryBuilder.where_ P items) = Resolved n
      /\ QueryBuilder.count items = Resolved m
      /\ n <= m
      /\ (QueryBuilder.all P items = Resolved true <-> n = m))
  /\ (QueryBuilder.all P items = Resolved true
      <-> QueryBuilder.where_ P items = items)
  /\ QueryBuilder.all P [] = Resolved true
  /\ (QueryBuilder.any items = Resolved true <-> items <> [])
  /\ (QueryBuilder.any (QueryBuilder.where_ P items) = Resolved true
      <-> exists item, In item items /\ P item = true).
Proof.
  assert (Hall : QueryBuilder.all P items = Resolved true
                 <-> filter P items = items).
  { unfold QueryBuilder.all. rewrite <- filter_all_iff.
    split; [intros E; now injection E|now intros ->]. }
  assert (Hany : forall l : list T,
             QueryBuilder.any l = Resolved true <-> l <> []).
  { intros l. unfold QueryBuilder.any. destruct l; simpl.
    - split; [discriminate|contradiction].
    - split; [discriminate|reflexivity]. }
  split; [|split; [exact Hall|split; [reflexivity|split; [apply Hany|]]]].
  - exists (List.length (filter P items)), (List.length items).
    split; [reflexivity|]. split; [reflexivity|].
    split; [apply filter_length_le|].
    rewrite Hall. split; [now intros ->|]. intros Hlen.
    clear Hall Hany.
    induction items as [|x l IH]; simpl in *; [reflexivity|].
    destruct (P x); simpl in *.
    + f_equal. apply IH. lia.
    + pose proof (filter_length_le P l). lia.
  - rewrite Hany. unfold QueryBuilder.where_. cbv zeta. split.
    + intros Hne. destruct (filter P items) as [|x l] eqn:E;
        [contradiction|].
      exists x. apply filter_In. rewrite E. now left.
    + intros (x & Hx & HP) E.
      assert (Hin : In x (filter P items)) by (apply filter_In; now split).
      now rewrite E in Hin.
Qed.
End FilterProperties.

(** *** [first] and [last] *)

Section EndsProperties.
Context {T : Type}.

(** X7: on a sequence that has an item, [first()] resolves to the item at
    the front and [last()] to the item at the back; they are the single
    items of [take(1)] and of [skip(-1)]. *)
Theorem first_last_of_nonempty (x : T) (rest : list T) :
  QueryBuilder.first (x :: rest) = Resolved (Some x)
  /\ QueryBuilder.last (rest ++ [x]) = Resolved (Some x)
  /\ QueryBuilder.take 1%float (x :: rest) = [x]
  /\ QueryBuilder.skip (-1)%float (rest ++ [x]) = [x].
Proof.
  split; [reflexivity|]. split; [|split].
  - unfold QueryBuilder.last, index.
    rewrite length_app, Nat.add_comm. simpl List.length.
    replace (Z.of_nat (1 + List.length rest) - 1)%Z
      with (Z.of_nat (List.length rest)) by lia.
    assert (E : (Z.of_nat (List.length rest) <? 0)%Z = false)
      by (apply Z.ltb_ge; lia).
    rewrite E, Nat2Z.id, nth_error_app2 by lia.
    now rewrite Nat.sub_diag.
  - destruct (skip_take_integer_count 1%float 1 (x :: rest) eq_refl)
      as (Hpos & _).
    destruct (Hpos ltac:(lia)) as (_ & ->). reflexivity.
  - destruct (skip_take_integer_count (-1)%float (-1) (rest ++ [x]) eq_refl)
      as (_ & Hneg & _).
    destruct (Hneg ltac:(lia)) as (-> & _).
    rewrite length_app. simpl.
    replace (List.length rest + 1 - Pos.to_nat 1) with (List.length rest)
      by lia.
    rewrite skipn_app, skipn_all, Nat.sub_diag. reflexivity.
Qed.
End EndsProperties.

(** *** [min], [max] and [orderBy] *)

Section ExtremumOfOrderBy.
Context {host : Host} {T : Type} `{Keyed T}.

Lemma lt_or_strict_eq {vals : list value} (a b : value) :
  totally_ordered vals = true -> In a vals -> In b vals ->
  strict_eq a b = false -> lt b a = false -> lt a b = true.
Proof.
  intros Hall Ha Hb Heq Hba.
  pose proof (totally_ordered_triple a b b Hall Ha Hb Hb) as Ht.
  unfold ordered_triple, exactly_one, gt in Ht. fold (lt b a) in Ht.
  rewrite Heq, Hba in Ht.
  destruct (lt a b); [reflexivity|discriminate].
Qed.

Lemma app_cons_split (b b' a a' : list T) (r r' : T) :
  b ++ r :: a = b' ++ r' :: a' ->
  (b = b' /\ r = r' /\ a = a')
  \/ (exists m, b' = b ++ r :: m /\ a = m ++ r' :: a')
  \/ (exists m, b = b' ++ r' :: m /\ a' = m ++ r :: a).
Proof.
  revert b'. induction b as [|x b IH]; intros [|x' b'] E; simpl in E.
  - injection E as -> ->. now left.
  - injection E as -> ->. right. left. now exists b'.
  - injection E as -> <-. right. right. now exists b.
  - injection E as Ex E'. subst x'.
    destruct (IH b' E') as [(-> & -> & ->)|[(m & -> & ->)|(m & -> & ->)]].
    + now left.
    + right. left. now exists m.
    + right. right. now exists m.
Qed.

(** A sequence has at most one earliest extremum. *)
Lemma earliest_extremum_unique (beats : value -> value -> bool)
      (key : string) (items : list T) (r r' : T) :
  earliest_extremum beats key items r ->
  earliest_extremum beats key items r' ->
  r = r'.
Proof.
  intros (b & a & -> & Hb & Ha) (b' & a' & E & Hb' & Ha').
  rewrite Forall_forall in Hb, Ha, Hb', Ha'.
  destruct (app_cons_split b b' a a' r r' E)
    as [(_ & -> & _)|[(m & -> & ->)|(m & -> & ->)]]; [reflexivity| |].
  - assert (beats (prop r' key) (prop r key) = true)
      by (apply Hb'; rewrite in_app_iff; simpl; tauto).
    assert (beats (prop r' key) (prop r key) = false)
      by (apply Ha; rewrite in_app_iff; simpl; tauto).
    congruence.
  - assert (beats (prop r key) (prop r' key) = true)
      by (apply Hb; rewrite in_app_iff; simpl; tauto).
    assert (beats (prop r key) (prop r' key) = false)
      by (apply Ha'; rewrite in_app_iff; simpl; tauto).
    congruence.
Qed.

(** The item the sort puts in front is the earliest extremum. *)
Lemma sort_head_earliest (key : string) (descending : bool)
      (whole : list T) (x : T) (rest : list T) :
  totally_ordered (map (fun i => prop i key) whole) = true ->
  incl (x :: rest) whole ->
  exists r tail,
    sort (QueryBuilder.compare key descending) (x :: rest) = r :: tail
    /\ earliest_extremum (if descending then gt else lt) key (x :: rest) r.
Proof.
  intros Hall.
  assert (Hv : forall a, In a whole ->
                         In (prop a key) (map (fun i => prop i key) whole))
    by (intros a Ha; now apply (in_map (fun i => prop i key))).
  revert x. induction rest as [|x' rest IH]; intros x Hincl.
  - exists x, []. split; [reflexivity|].
    exists [], []. repeat split; constructor.
  - assert (Hx : In x whole) by (apply Hincl; now left).
    assert (Hincl' : incl (x' :: rest) whole)
      by (intros z Hz; apply Hincl; now right).
    destruct (IH x' Hincl') as (y & tail & Esort & Hy).
    assert (Hyin : In y (x' :: rest)).
    { destruct Hy as (b & a & -> & _). rewrite in_app_iff. simpl. tauto. }
    assert (Hyw : In y whole) by now apply Hincl'.
    assert (Hunbeaten : forall z, In z (x' :: rest) ->
                          (if descending then gt else lt)
                            (prop z key) (prop y key) = false).
    { apply (earliest_extremum_unbeaten _ key (x' :: rest) y); [| |exact Hy].
      - intros a b Ha Hb. destruct descending; unfold gt;
          apply (lt_asymmetric _ _ Hall); auto.
      - intros a Ha. destruct descending; unfold gt;
          apply (lt_irreflexive _ Hall); auto. }
    change (sort (QueryBuilder.compare key descending) (x :: x' :: rest))
      with (sort_insert (QueryBuilder.compare key descending) x
              (sort (QueryBuilder.compare key descending) (x' :: rest))).
    rewrite Esort. simpl sort_insert.
    destruct (0 <? QueryBuilder.compare key descending x y)%Z eqn:Ec.
    + exists y. eexists. split; [reflexivity|].
      destruct Hy as (b & a & E & Hb & Ha).
      exists (x :: b), a. rewrite E. split; [reflexivity|].
      split; [|exact Ha]. constructor; [|exact Hb].
      apply Z.ltb_lt in Ec. unfold QueryBuilder.compare in Ec.
      destruct (strict_eq (prop x key) (prop y key)) eqn:Eeq; [lia|].
      destruct (gt (prop x key) (prop y key)) eqn:Egt;
        destruct descending; try lia.
      * exact Egt.
      * unfold gt in *. apply (lt_or_strict_eq _ _ Hall); auto.
    + exists x. eexists. split; [reflexivity|].
      exists [], (x' :: rest). split; [reflexivity|].
      split; [constructor|].
      apply Z.ltb_ge in Ec. unfold QueryBuilder.compare in Ec.
      assert (Hxy : (if descending then gt else lt)
                      (prop y key) (prop x key) = false).
      { destruct (strict_eq (prop x key) (prop y key)) eqn:Eeq.
        - destruct (strict_eq_not_lt _ _ Hall (Hv x Hx) (Hv y Hyw) Eeq).
          now destruct descending.
        - destruct (gt (prop x key) (prop y key)) eqn:Egt;
            destruct descending; try lia.
          + unfold gt in *. apply (lt_asymmetric _ _ Hall); auto.
          + exact Egt. }
      apply Forall_forall. intros z Hz.
      pose proof (Hunbeaten z Hz) as Hzy.
      assert (Hzw : In z whole) by now apply Hincl'.
      destruct descending; unfold gt in *.
      * apply (not_lt_transitive _ (prop y key) _ Hall); auto.
      * apply (not_lt_transitive _ (prop y key) _ Hall); auto.
Qed.

(** X8: when the field values of a sequence that has an item are totally
    ordered, [min(key)] is the [first()] of [orderBy(key)] and [max(key)]
    is the [first()] of [orderBy(key, true)]. *)
Theorem extremum_is_first_of_orderBy (key : string) (items : list T) :
  items <> [] ->
  totally_ordered (map (fun i => prop i key) items) = true ->
  QueryBuilder.first (QueryBuilder.orderBy key false items)
  = QueryBuilder.min key items
  /\ QueryBuilder.first (QueryBuilder.orderBy key true items)
     = QueryBuilder.max key items.
Proof.
  intros Hne Hall. destruct items as [|x rest]; [contradiction|].
  destruct (min_earliest key x rest Hall) as (lo & -> & Hlo).
  destruct (max_earliest key x rest Hall) as (hi & -> & Hhi).
  destruct (sort_head_earliest key false (x :: rest) x rest Hall
              (incl_refl _)) as (r1 & t1 & E1 & H1).
  destruct (sort_head_earliest key true (x :: rest) x rest Hall
              (incl_refl _)) as (r2 & t2 & E2 & H2).
  unfold QueryBuilder.first, QueryBuilder.orderBy. cbv zeta.
  rewrite slice_copy, E1, E2.
  rewrite (earliest_extremum_unique _ _ _ _ _ H1 Hlo).
  rewrite (earliest_extremum_unique _ _ _ _ _ H2 Hhi).
  split; reflexivity.
Qed.
End ExtremumOfOrderBy.

(** The youngest and the oldest of the test suite head the two orders. *)
Lemma extremum_is_first_of_orderBy_witness :
  QueryBuilder.first
    (QueryBuilder.orderBy (host := Fixtures.plain_host) "age" false
       Fixtures.data)
  = Resolved (Some Fixtures.Bob)
  /\ QueryBuilder.first
       (QueryBuilder.orderBy (host := Fixtures.plain_host) "age" true
          Fixtures.data)
     = Resolved (Some Fixtures.Charlie).
Proof.
  destruct (extremum_is_first_of_orderBy (host := Fixtures.plain_host)
              "age" Fixtures.data) as [-> ->].
  - discriminate.
  - vm_compute. reflexivity.
  - split; reflexivity.
Defined.

(** *** [groupBy] and [where] *)

Section StrictEqualityFacts.

Lemma strict_eq_symmetric (a b : value) : strict_eq a b = strict_eq b a.
Proof.
  destruct a, b; simpl; try reflexivity.
  - now destruct b, b0.
  - apply eqb_symmetric.
  - apply String.eqb_sym.
  - apply Nat.eqb_sym.
Qed.

Lemma strict_eq_congruent (a b c : value) :
  strict_eq a b = true -> strict_eq a c = strict_eq b c.
Proof.
  destruct a, b; simpl; try discriminate; try reflexivity; intros E.
  - apply Bool.eqb_prop in E. now subst.
  - destruct c; try reflexivity. now apply eqb_congruent.
  - apply String.eqb_eq in E. now subst.
  - apply Nat.eqb_eq in E. now subst.
Qed.

Lemma strict_eq_reflexive (k : value) :
  is_not_NaN k = true -> strict_eq k k = true.
Proof.
  destruct k; simpl; try reflexivity.
  - intros _. now destruct b.
  - unfold PrimFloat.is_nan. now rewrite negb_involutive.
  - intros _. apply String.eqb_refl.
  - intros _. apply Nat.eqb_refl.
Qed.
End StrictEqualityFacts.

Section GroupsAreWhere.
Context {T : Type}.
Variable keySelector : T -> value.

Lemma groupBy_partitions (items : list T) :
  partitions keySelector items (QueryBuilder.groupBy keySelector items).
Proof.
  induction items as [|item items IH] using rev_ind.
  - repeat split; constructor.
  - rewrite groupBy_snoc. now apply partitions_more.
Qed.

Lemma ForallOrdPairs_after {A : Type} (R : A -> A -> Prop)
      (l1 l2 : list A) (a : A) :
  ForallOrdPairs R (l1 ++ a :: l2) -> Forall (R a) l2.
Proof.
  induction l1 as [|x l1 IH]; simpl; intros Hp; inversion Hp; subst; auto.
Qed.

Lemma filter_none (p : T -> bool) (l : list T) :
  (forall y, In y l -> p y = false) -> filter p l = [].
Proof.
  induction l as [|x l IH]; intros Hp; simpl; [reflexivity|].
  rewrite (Hp x) by now left. apply IH. intros y Hy. apply Hp. now right.
Qed.

Lemma filter_snoc (p : T -> bool) (l : list T) (x : T) :
  filter p (l ++ [x]) = filter p l ++ (if p x then [x] else []).
Proof. rewrite filter_app. reflexivity. Qed.

(** X9: when no key is [NaN], the group of a record of [groupBy(f)] is
    what [where] keeps of the source for the items whose key [===] the
    key of the record. *)
Theorem groupBy_groups_are_where (items : list T) :
  Forall (fun item => is_not_NaN (keySelector item) = true) items ->
  Forall (fun g =>
            group g
            = QueryBuilder.where_
                (fun item => strict_eq (key g) (keySelector item)) items)
         (QueryBuilder.toArray (QueryBuilder.groupBy keySelector items)).
Proof.
  unfold QueryBuilder.toArray, QueryBuilder.where_. cbv zeta.
  induction items as [|x l IH] using rev_ind; intros Hkeys;
    [constructor|].
  apply Forall_app in Hkeys. destruct Hkeys as [Hl Hx].
  inversion Hx as [|? ? Hk _]; subst. specialize (IH Hl).
  destruct (groupBy_partitions l) as (Hperm & _ & _ & _ & Hdistinct).
  rewrite groupBy_snoc.
  destruct (find_and_update _ _ (QueryBuilder.groupBy keySelector l))
    as [groups'|] eqn:E.
  - apply find_and_update_Some in E.
    destruct E as (l1 & a & l2 & Egs & Hl1 & Ha & ->).
    rewrite Egs in IH, Hdistinct.
    apply Forall_app in IH. destruct IH as [IH1 IH2].
    inversion IH2 as [|? ? IHa IH2']; subst.
    apply Forall_app. split; [|constructor].
    + rewrite Forall_forall in *. intros g Hg.
      rewrite filter_snoc, <- (IH1 g Hg).
      assert (Hgk : strict_eq (key g) (keySelector x) = false).
      { destruct (strict_eq (key g) (keySelector x)) eqn:Egk;
          [|reflexivity].
        assert (existsb (fun g => strict_eq (key g) (keySelector x)) l1
                = true) as Hex
            by (apply existsb_exists; now exists g).
        now rewrite Hl1 in Hex. }
      now rewrite Hgk, app_nil_r.
    + simpl. now rewrite filter_snoc, Ha, <- IHa.
    + rewrite map_app in Hdistinct. simpl in Hdistinct.
      apply ForallOrdPairs_after in Hdistinct.
      rewrite Forall_forall in *. intros g Hg.
      rewrite filter_snoc, <- (IH2' g Hg).
      assert (Hgk : strict_eq (key g) (keySelector x) = false).
      { destruct (strict_eq (key g) (keySelector x)) eqn:Egk;
          [|reflexivity].
        assert (Hag : strict_eq (key a) (key g) = false)
          by (apply Hdistinct; now apply in_map).
        rewrite (strict_eq_congruent _ _ (key g) Ha),
          strict_eq_symmetric, Egk in Hag.
        discriminate. }
      now rewrite Hgk, app_nil_r.
  - apply find_and_update_None in E.
    apply Forall_app. split; [|constructor; [|constructor]].
    + rewrite Forall_forall in *. intros g Hg.
      rewrite filter_snoc, <- (IH g Hg).
      assert (Hgk : strict_eq (key g) (keySelector x) = false).
      { destruct (strict_eq (key g) (keySelector x)) eqn:Egk;
          [|reflexivity].
        assert (existsb (fun g => strict_eq (key g) (keySelector x))
                        (QueryBuilder.groupBy keySelector l) = true) as Hex
            by (apply existsb_exists; now exists g).
        now rewrite E in Hex. }
      now rewrite Hgk, app_nil_r.
    + simpl. rewrite filter_snoc, (strict_eq_reflexive _ Hk).
      rewrite filter_none; [reflexivity|].
      intros y Hy.
      destruct (strict_eq (keySelector x) (keySelector y)) eqn:Exy;
        [|reflexivity].
      apply (Permutation_in _ (Permutation_sym Hperm)) in Hy.
      apply in_concat in Hy. destruct Hy as (gl & Hgl & Hy).
      apply in_map_iff in Hgl. destruct Hgl as (g & <- & Hg).
      rewrite Forall_forall in IH. rewrite (IH g Hg) in Hy.
      apply filter_In in Hy. destruct Hy as [_ Hgy].
      assert (existsb (fun g => strict_eq (key g) (keySelector x))
                      (QueryBuilder.groupBy keySelector l) = true) as Hex.
      { apply existsb_exists. exists g. split; [exact Hg|].
        rewrite (strict_eq_congruent _ _ (keySelector x) Hgy).
        now rewrite strict_eq_symmetric. }
      now rewrite E in Hex.
Qed.
End GroupsAreWhere.

(** The people of the test suite by department. *)
Lemma groupBy_groups_are_where_witness :
  Forall (fun g =>
            group g
            = QueryBuilder.where_
                (fun p => strict_eq (key g) (VNum (Fixtures.departmentId p)))
                Fixtures.data)
         (QueryBuilder.groupBy (fun p => VNum (Fixtures.departmentId p))
            Fixtures.data).
Proof.
  apply (groupBy_groups_are_where
           (fun p => VNum (Fixtures.departmentId p)) Fixtures.data).
  repeat constructor.
Defined.

(** *** [join] *)

Section JoinFurther.
Context {T U : Type} `{Truthy U}.
Variable otherItems : list U.
Variable keySelector : T -> value.
Variable otherKeySelector : U -> value.
Variable resultSelector : T -> U -> value.

(** X10: the lookup [join] fills from the other-items holds a key exactly
    when an other-item has that key, and then holds the last other-item
    that has it. *)
Theorem join_lookup_keeps_last (k : value) :
  let otherItemsMap :=
    fold_left (fun m item => Map_set m (otherKeySelector item) item)
              otherItems [] in
  (Map_get otherItemsMap k = None
   <-> forall otherItem, In otherItem otherItems ->
                         SameValueZero (otherKeySelector otherItem) k = false)
  /\ (forall otherItem,
        Map_get otherItemsMap k = Some otherItem ->
        exists before after,
          otherItems = before ++ otherItem :: after
          /\ SameValueZero (otherKeySelector otherItem) k = true
          /\ Forall (fun later =>
                       SameValueZero (otherKeySelector later) k = false)
                    after).
Proof.
  cbv zeta. rewrite lookup_last_write_wins. unfold last_with_key.
  split.
  - split.
    + intros Hnone o Ho.
      apply (find_none _ _ Hnone). now apply in_rev in Ho.
    + intros Hall.
      destruct (find _ (rev otherItems)) as [o|] eqn:E; [|reflexivity].
      apply find_some in E. destruct E as [Ho Hk].
      apply in_rev in Ho. now rewrite (Hall o Ho) in Hk.
  - intros o E.
    assert (Hlast : forall l,
               find (fun otherItem =>
                       SameValueZero (otherKeySelector otherItem) k) l
               = Some o ->
               exists before after,
                 rev l = before ++ o :: after
                 /\ SameValueZero (otherKeySelector o) k = true
                 /\ Forall (fun later =>
                              SameValueZero (otherKeySelector later) k
                              = false) after).
    { induction l as [|x l IH]; simpl; [discriminate|].
      destruct (SameValueZero (otherKeySelector x) k) eqn:Ex.
      - intros E'. injection E' as ->.
        exists (rev l), []. split; [reflexivity|].
        split; [exact Ex|constructor].
      - intros E'. destruct (IH E') as (b & a & Eb & Ho & Ha).
        exists b, (a ++ [x]). rewrite Eb, <- app_assoc. simpl.
        split; [reflexivity|]. split; [exact Ho|].
        apply Forall_app. split; [exact Ha|now repeat constructor]. }
    destruct (Hlast _ E) as (b & a & Eb & Ho & Ha).
    rewrite rev_involutive in Eb. now exists b, a.
Qed.

(** X11: when every other-item is truthy and the result selector never
    gives [undefined], [join] emits, in the order of the left items, the
    result of each left item whose key an other-item has, paired with the
    last other-item that has it, and nothing else. *)
Theorem join_is_inner_join (items : list T) :
  Forall (fun otherItem => truthy otherItem = true) otherItems ->
  (forall item otherItem,
      strict_eq (resultSelector item otherItem) VUndefined = false) ->
  QueryBuilder.toArray
    (QueryBuilder.join otherItems keySelector otherKeySelector
       resultSelector items)
  = inner_join (last_with_key otherKeySelector otherItems) keySelector
      resultSelector items.
Proof. apply join_inner_join_when_defined. Qed.

(** X12: whatever the other-items and the result selector, [join] emits
    at most one row per left item, each row is the result of a left item
    and of an other-item that has its key, and no row is [undefined];
    with no other-item, [join] emits nothing. *)
Theorem join_emits_matches_only (items : list T) :
  let joined :=
    QueryBuilder.toArray
      (QueryBuilder.join otherItems keySelector otherKeySelector
         resultSelector items) in
  List.length joined <= List.length items
  /\ (forall row, In row joined ->
        row <> VUndefined
        /\ exists item otherItem,
             In item items /\ In otherItem otherItems
             /\ SameValueZero (otherKeySelector otherItem)
                              (keySelector item) = true
             /\ row = resultSelector item otherItem)
  /\ (otherItems = [] -> joined = []).
Proof.
  unfold QueryBuilder.toArray, QueryBuilder.join. cbv zeta.
  split; [|split].
  - etransitivity; [apply filter_length_le|]. now rewrite length_map.
  - intros row Hrow. apply filter_In in Hrow. destruct Hrow as [Hrow Hdef].
    split; [intros ->; discriminate|].
    apply in_map_iff in Hrow. destruct Hrow as (item & Erow & Hitem).
    rewrite lookup_last_write_wins in Erow.
    destruct (last_with_key otherKeySelector otherItems (keySelector item))
      as [o|] eqn:E; [|subst row; discriminate].
    destruct (truthy o); [|subst row; discriminate].
    unfold last_with_key in E. apply find_some in E. destruct E as [Ho Hk].
    exists item, o. apply in_rev in Ho. now repeat split.
  - intros ->. simpl. apply filter_none. intros y Hy.
    apply in_map_iff in Hy. now destruct Hy as (item & <- & _).
Qed.
End JoinFurther.

(** The people of the test suite joined to their departments. *)
Lemma join_is_inner_join_witness :
  QueryBuilder.toArray
    (QueryBuilder.join Departments.departments
       (fun p => VNum (Fixtures.departmentId p))
       (fun d => VNum (Departments.id d))
       Departments.with_department Fixtures.data)
  = [VStr "Alice of HR"; VStr "Bob of Engineering"; VStr "Charlie of HR"].
Proof.
  rewrite (join_is_inner_join Departments.departments
             (fun p => VNum (Fixtures.departmentId p))
             (fun d => VNum (Departments.id d))
             Departments.with_department Fixtures.data).
  - reflexivity.
  - repeat constructor.
  - reflexivity.
Defined.

(** *** [sum] and [avg] on values that are not numbers *)

Section SumProperties.
Context {host : Host} {T : Type} `{Keyed T}.

Lemma is_nan_Prim2SF (x : float) :
  PrimFloat.is_nan x = true <-> Prim2SF x = S754_nan.
Proof.
  unfold PrimFloat.is_nan. rewrite negb_true_iff, FloatAxioms.eqb_spec.
  split.
  - intros E. destruct (Prim2SF x) as [s|s| |s m e] eqn:Ex;
      try reflexivity; rewrite SFeqb_refl in E; discriminate.
  - now intros ->.
Qed.

Lemma add_is_nan (x y : float) :
  PrimFloat.is_nan x = true \/ PrimFloat.is_nan y = true ->
  PrimFloat.is_nan (x + y) = true.
Proof.
  rewrite !is_nan_Prim2SF, FloatAxioms.add_spec. unfold SF64add, SFadd.
  intros [-> | ->]; [reflexivity|].
  now destruct (Prim2SF x).
Qed.

Lemma div_is_nan (x y : float) :
  PrimFloat.is_nan x = true -> PrimFloat.is_nan (x / y) = true.
Proof.
  rewrite !is_nan_Prim2SF, FloatAxioms.div_spec. unfold SF64div, SFdiv.
  now intros ->.
Qed.

Lemma sum_from_nan (key : string) (items : list T) (acc : float) :
  PrimFloat.is_nan acc = true ->
  PrimFloat.is_nan
    (fold_left (fun sum item => (sum + ToNumber (prop item key))%float)
               items acc) = true.
Proof.
  revert acc. induction items as [|x l IH]; intros acc Hacc; simpl;
    [exact Hacc|].
  apply IH. apply add_is_nan. now left.
Qed.

(** X13: when the field of some item does not convert to a number,
    [sum(key)] and [avg(key)] are [NaN]. *)
Theorem sum_and_avg_propagate_NaN (key : string) (items : list T) :
  Exists (fun item => PrimFloat.is_nan (ToNumber (prop item key)) = true)
         items ->
  exists s a,
    QueryBuilder.sum key items = Resolved s
    /\ PrimFloat.is_nan s = true
    /\ QueryBuilder.avg key items = Resolved a
    /\ PrimFloat.is_nan a = true.
Proof.
  intros Hex.
  assert (Hsum : forall acc,
             PrimFloat.is_nan
               (fold_left (fun sum item =>
                             (sum + ToNumber (prop item key))%float)
                          items acc) = true).
  { induction Hex as [x l Hx|x l _ IH]; intros acc; simpl.
    - apply sum_from_nan. apply add_is_nan. now right.
    - apply IH. }
  eexists. eexists.
  split; [reflexivity|]. split; [apply Hsum|].
  split; [reflexivity|].
  destruct items as [|x l]; [inversion Hex|].
  simpl Nat.eqb. cbv iota. apply div_is_nan. apply Hsum.
Qed.
End SumProperties.

(** No person of the test suite has a salary: the sum of the salaries is
    not a number. *)
Lemma sum_and_avg_propagate_NaN_witness :
  exists s a,
    QueryBuilder.sum (host := Fixtures.plain_host) "salary" Fixtures.data
    = Resolved s
    /\ PrimFloat.is_nan s = true
    /\ QueryBuilder.avg (host := Fixtures.plain_host) "salary" Fixtures.data
       = Resolved a
    /\ PrimFloat.is_nan a = true.
Proof.
  apply (sum_and_avg_propagate_NaN (host := Fixtures.plain_host)
           "salary" Fixtures.data).
  apply Exists_cons_hd. reflexivity.
Defined.

(** *** Engines: what [toArray] returns, and chains of calls *)

Section ChainProperties.
Import Instances.
Variable item : nat -> Type.

(** X14: [from(items).toArray()] returns the array [items] itself, and so
    does [new QueryBuilder(items).toArray()]; neither makes nor changes an
    array. *)
Theorem from_then_toArray_is_same_array
        (h : heap item) (t : ty) (this : ref t) (arr items : aref t) :
  wraps h this arr ->
  (exists h',
      bind (from this items) (fun q => toArray q) h = Some (items, h')
      /\ arrays h' = arrays h)
  /\ (exists h',
        bind (new_QueryBuilder items) (fun q => toArray q) h
        = Some (items, h')
        /\ arrays h' = arrays h).
Proof.
  intros Hthis. split.
  - destruct (from_rewrites item h t this arr Hthis items)
      as (h' & Erun & Hw & Ha & _).
    exists h'. split; [|exact Ha].
    unfold bind. rewrite Erun. unfold toArray.
    apply (wraps_get_items item Hw).
  - eexists. split.
    + unfold bind, new_QueryBuilder, toArray, get_items. simpl.
      rewrite nth_error_last, (ty_eq_dec_refl t). reflexivity.
    + reflexivity.
Qed.

(** X15: a call that returns a new engine, followed by a call on that
    engine that returns a new engine, returns a new engine over a new
    array that holds what the second call makes of the result of the
    first; the receiver, and every engine and array of the store, are as
    they were. *)
Theorem chain_of_calls_branches
        (h : heap item) (t r r2 : ty) (this : ref t) (arr : aref t)
        (S : list (elt item t)) (R : list (elt item r))
        (R2 : list (elt item r2))
        (m : M item (ref r)) (k : ref r -> M item (ref r2)) :
  branches m h this arr S R ->
  (forall (h' : heap item) (q : ref r) (arr' : aref r),
      wraps h' q arr' -> holds h' arr' R ->
      branches (k q) h' q arr' R R2) ->
  branches (bind m k) h this arr S R2.
Proof.
  intros (q1 & h1 & arr1 & Erun1 & Hext1 & Hq1 & Harr1 & Hw1 & Hh1 & Hthis1
          & HS1) Hk.
  destruct (Hk h1 q1 arr1 Hw1 Hh1)
    as (q2 & h2 & arr2 & Erun2 & Hext2 & Hq2 & Harr2 & Hw2 & Hh2 & _).
  pose proof (extends_lengths item Hext1) as [Hla1 Hle1].
  pose proof (extends_transitive item Hext1 Hext2) as Hext.
  exists q2, h2, arr2.
  split; [unfold bind; now rewrite Erun1|].
  split; [exact Hext|].
  split; [lia|]. split; [lia|].
  split; [exact Hw2|]. split; [exact Hh2|].
  split; [exact (extends_wraps item Hext2 Hthis1)
         |exact (extends_holds item Hext2 HS1)].
Qed.
End ChainProperties.

(** An engine over the people of the test suite, filtered and then
    skipped: the engine returned wraps the one person left. *)
Lemma chain_of_calls_branches_witness :
  let h := Instances.Heap (item := fun _ => Fixtures.Person)
             [Instances.Array (Instances.TItem 0) Fixtures.data]
             [Instances.Instance (Instances.TItem 0) 0] in
  let this : Instances.ref (Instances.TItem 0) := 0 in
  let arr : Instances.aref (Instances.TItem 0) := 0 in
  let older := fun p => PrimFloat.ltb 25 (Fixtures.age p) in
  Instances.branches
    (Instances.bind (Instances.where_ this older)
       (fun q => Instances.skip q 1%float))
    h this arr Fixtures.data [Fixtures.Charlie].
Proof.
  intros h this arr older.
  assert (Hthis : Instances.wraps h this arr) by reflexivity.
  assert (Harr : Instances.holds h arr Fixtures.data) by reflexivity.
  apply (chain_of_calls_branches (fun _ => Fixtures.Person) h
           (Instances.TItem 0) (Instances.TItem 0) (Instances.TItem 0)
           this arr Fixtures.data
           (QueryBuilder.where_ older Fixtures.data)).
  - exact (where_branches (fun _ => Fixtures.Person) h (Instances.TItem 0)
             this arr Fixtures.data Hthis Harr older).
  - intros h' q arr' Hq Harr'.
    exact (slice_branches (fun _ => Fixtures.Person) h' (Instances.TItem 0)
             q arr' _ Hq Harr' _ 1%float None eq_refl).
Defined.

(** An engine made to wrap another array hands that array back. *)
Lemma from_then_toArray_is_same_array_witness :
  let h := Instances.Heap (item := fun _ => Fixtures.Person)
             [Instances.Array (Instances.TItem 0) [];
              Instances.Array (Instances.TItem 0) Fixtures.data]
             [Instances.Instance (Instances.TItem 0) 0] in
  let this : Instances.ref (Instances.TItem 0) := 0 in
  let data : Instances.aref (Instances.TItem 0) := 1 in
  exists h',
    Instances.bind (Instances.from this data)
      (fun q => Instances.toArray q) h = Some (data, h')
    /\ Instances.arrays h' = Instances.arrays h.
Proof.
  intros h this data.
  apply (from_then_toArray_is_same_array (fun _ => Fixtures.Person) h
           (Instances.TItem 0) this (0 : Instances.aref (Instances.TItem 0))
           data).
  reflexivity.
Defined.

(** *** [orderBy] with [where], and on a sequence already ordered *)

Section SortFurther.
Context {A : Type}.
Variable comparefn : A -> A -> Z.

Lemma sort_insert_front (x : A) (sorted : list A) :
  (forall y, In y sorted -> (comparefn x y <= 0)%Z) ->
  sort_insert comparefn x sorted = x :: sorted.
Proof.
  destruct sorted as [|y rest]; [reflexivity|]. intros Hall. simpl.
  pose proof (Hall y (or_introl eq_refl)) as Hy.
  destruct (Z.ltb_spec 0 (comparefn x y)); [lia|reflexivity].
Qed.

Lemma sort_of_sorted (arr : list A) :
  StronglySorted (fun a b => (comparefn a b <= 0)%Z) arr ->
  sort comparefn arr = arr.
Proof.
  induction 1 as [|x l Hl IH Hx]; simpl; [reflexivity|].
  rewrite IH. apply sort_insert_front.
  now apply Forall_forall.
Qed.

Lemma filter_sort_insert (precedes : A -> A -> Prop) (P : A -> bool)
      (x : A) (sorted : list A) :
  StronglySorted precedes sorted ->
  (forall y z, In y sorted -> In z sorted ->
               (comparefn x y <= 0)%Z -> precedes y z ->
               (comparefn x z <= 0)%Z) ->
  filter P (sort_insert comparefn x sorted)
  = if P x then sort_insert comparefn x (filter P sorted)
    else filter P sorted.
Proof.
  induction 1 as [|y rest Hrest IH Hy]; intros Htrans.
  - simpl. now destruct (P x).
  - simpl sort_insert. destruct (0 <? comparefn x y)%Z eqn:E.
    + simpl. rewrite IH.
      * destruct (P y) eqn:Py; [|reflexivity].
        destruct (P x); [|reflexivity].
        simpl. now rewrite E.
      * intros y' z Hy' Hz. apply Htrans; now right.
    + apply Z.ltb_ge in E.
      assert (Hall : forall z, In z (y :: rest) -> (comparefn x z <= 0)%Z).
      { intros z [<-|Hz]; [exact E|].
        apply (Htrans y z); [now left|now right|exact E|].
        rewrite Forall_forall in Hy. now apply Hy. }
      change (filter P (x :: y :: rest))
        with (if P x then x :: filter P (y :: rest)
              else filter P (y :: rest)).
      destruct (P x); [|reflexivity].
      symmetry. apply sort_insert_front.
      intros z Hz. apply filter_In in Hz. now apply Hall.
Qed.
End SortFurther.

Section OrderByFurther.
Context {host : Host} {T : Type} `{Keyed T}.

Lemma totally_ordered_incl (vals vals' : list value) :
  incl vals' vals ->
  totally_ordered vals = true -> totally_ordered vals' = true.
Proof.
  intros Hincl Hall. unfold totally_ordered.
  apply forallb_forall. intros a Ha.
  apply forallb_forall. intros b Hb.
  apply forallb_forall. intros c Hc.
  apply (totally_ordered_triple a b c Hall); now apply Hincl.
Qed.

(** Between two items, the comparator of [orderBy] does not put the first
    behind the second exactly when the first may come before it. *)
Lemma compare_not_behind (key : string) (descending : bool)
      (vals : list value) (a b : T) :
  totally_ordered vals = true ->
  In (prop a key) vals -> In (prop b key) vals ->
  (QueryBuilder.compare key descending a b <= 0)%Z
  <-> (if descending then lt (prop a key) (prop b key) = false
       else gt (prop a key) (prop b key) = false).
Proof.
  intros Hall Ha Hb. unfold QueryBuilder.compare.
  destruct (strict_eq (prop a key) (prop b key)) eqn:Eeq.
  - destruct (strict_eq_not_lt _ _ Hall Ha Hb Eeq) as [Hab Hba].
    split; [|lia]. intros _. destruct descending; [exact Hab|exact Hba].
  - destruct (gt (prop a key) (prop b key)) eqn:Egt.
    + assert (Hab : lt (prop a key) (prop b key) = false)
        by (apply (lt_asymmetric _ _ Hall Hb Ha); exact Egt).
      destruct descending; split; intros Hc;
        [exact Hab|lia|lia|discriminate Hc].
    + assert (Hab : lt (prop a key) (prop b key) = true)
        by (apply (lt_or_strict_eq _ _ Hall Ha Hb); [exact Eeq|exact Egt]).
      destruct descending; split; intros Hc;
        [lia|congruence|reflexivity|lia].
Qed.

Lemma where_of_sort (key : string) (descending : bool)
      (predicate : T -> bool) (items : list T) :
  totally_ordered (map (fun i => prop i key) items) = true ->
  filter predicate (sort (QueryBuilder.compare key descending) items)
  = sort (QueryBuilder.compare key descending) (filter predicate items).
Proof.
  induction items as [|x l IH]; intros Hall; [reflexivity|].
  assert (Hl : totally_ordered (map (fun i => prop i key) l) = true).
  { apply (totally_ordered_incl _ _ (incl_tl _ (incl_refl _)) Hall). }
  assert (Hv : forall a, In a (x :: l) ->
                         In (prop a key)
                            (map (fun i => prop i key) (x :: l)))
    by (intros a Ha; now apply (in_map (fun i => prop i key))).
  assert (Hin : forall a,
             In a (sort (QueryBuilder.compare key descending) l) ->
             In a (x :: l)).
  { intros a Ha. right.
    exact (Permutation_in _ (sort_Permutation _ l) Ha). }
  simpl sort.
  rewrite (filter_sort_insert _
             (fun a b => if descending
                         then lt (prop a key) (prop b key) = false
                         else gt (prop a key) (prop b key) = false)).
  - rewrite (IH Hl). simpl filter. now destruct (predicate x).
  - pose proof (orderBy_StronglySorted key descending l Hl) as Hs.
    unfold QueryBuilder.orderBy in Hs. now rewrite slice_copy in Hs.
  - intros y z Hy Hz Hxy Hyz.
    assert (Hxv := Hv x (or_introl eq_refl)).
    assert (Hyv := Hv y (Hin y Hy)).
    assert (Hzv := Hv z (Hin z Hz)).
    apply (compare_not_behind key descending _ x z Hall Hxv Hzv).
    apply (compare_not_behind key descending _ x y Hall Hxv Hyv) in Hxy.
    destruct descending.
    + apply (not_lt_transitive _ (prop y key) _ Hall); auto.
    + unfold gt in *.
      apply (not_lt_transitive _ (prop y key) _ Hall); auto.
Qed.

(** X16: when the field values are totally ordered, [where] and [orderBy]
    can be called in either order: filtering the ordered sequence gives
    what ordering the filtered sequence gives. *)
Theorem where_commutes_with_orderBy (key : string) (descending : bool)
        (predicate : T -> bool) (items : list T) :
  totally_ordered (map (fun i => prop i key) items) = true ->
  QueryBuilder.where_ predicate (QueryBuilder.orderBy key descending items)
  = QueryBuilder.orderBy key descending
      (QueryBuilder.where_ predicate items).
Proof.
  intros Hall. unfold QueryBuilder.where_, QueryBuilder.orderBy.
  rewrite !slice_copy. now apply where_of_sort.
Qed.

Lemma StronglySorted_pairwise {A : Type} (R : A -> A -> Prop)
      (l : list A) :
  (forall a b, In a l -> In b l -> R a b) -> StronglySorted R l.
Proof.
  induction l as [|x l IH]; intros Hall; constructor.
  - apply IH. intros a b Ha Hb. apply Hall; now right.
  - apply Forall_forall. intros b Hb. apply Hall; [now left|now right].
Qed.

Lemma StronglySorted_among {A : Type} (R R' : A -> A -> Prop)
      (l : list A) :
  (forall a b, In a l -> In b l -> R a b -> R' a b) ->
  StronglySorted R l -> StronglySorted R' l.
Proof.
  intros Himp Hs. induction Hs as [|x l Hl IH Hx]; constructor.
  - apply IH. intros a b Ha Hb. apply Himp; now right.
  - rewrite Forall_forall in *. intros b Hb.
    apply Himp; [now left|now right|now apply Hx].
Qed.

(** X17: when the field values are totally ordered, [orderBy] keeps the
    source order of the items whose field values [===] one another, in
    both directions, and ordering an ordered sequence again by the same
    key and direction changes nothing. *)
Theorem orderBy_is_stable_and_idempotent (key : string)
        (descending : bool) (items : list T) :
  totally_ordered (map (fun i => prop i key) items) = true ->
  (forall v,
      QueryBuilder.where_ (fun item => strict_eq (prop item key) v)
        (QueryBuilder.orderBy key descending items)
      = QueryBuilder.where_ (fun item => strict_eq (prop item key) v)
          items)
  /\ QueryBuilder.orderBy key descending
       (QueryBuilder.orderBy key descending items)
     = QueryBuilder.orderBy key descending items.
Proof.
  intros Hall.
  assert (Hv : forall a, In a items ->
                         In (prop a key) (map (fun i => prop i key) items))
    by (intros a Ha; now apply (in_map (fun i => prop i key))).
  split.
  - intros v. unfold QueryBuilder.where_, QueryBuilder.orderBy.
    rewrite slice_copy, (where_of_sort key descending _ items Hall).
    apply sort_of_sorted. apply StronglySorted_pairwise.
    intros a b Ha Hb.
    apply filter_In in Ha. apply filter_In in Hb.
    destruct Ha as [_ Ea]. destruct Hb as [_ Eb].
    unfold QueryBuilder.compare.
    rewrite (strict_eq_congruent _ _ (prop b key) Ea).
    rewrite strict_eq_symmetric, Eb. lia.
  - unfold QueryBuilder.orderBy. rewrite !slice_copy.
    apply sort_of_sorted.
    pose proof (orderBy_StronglySorted key descending items Hall) as Hs.
    unfold QueryBuilder.orderBy in Hs. rewrite slice_copy in Hs.
    revert Hs. apply StronglySorted_among.
    intros a b Ha Hb Hab.
    apply (Permutation_in _ (sort_Permutation _ items)) in Ha.
    apply (Permutation_in _ (sort_Permutation _ items)) in Hb.
    now apply (compare_not_behind key descending _ a b Hall
                 (Hv a Ha) (Hv b Hb)).
Qed.
End OrderByFurther.

(** The people of the test suite by department, largest first: Alice
    and Charlie, both of department 1, stay in that order, and the people
    over 25 are the same before and after. *)
Lemma where_commutes_with_orderBy_witness :
  let older := fun p => PrimFloat.ltb 25 (Fixtures.age p) in
  QueryBuilder.where_ older
    (QueryBuilder.orderBy (host := Fixtures.plain_host) "departmentId" true
       Fixtures.data)
  = QueryBuilder.orderBy (host := Fixtures.plain_host) "departmentId" true
      (QueryBuilder.where_ older Fixtures.data).
Proof.
  intros older.
  apply (where_commutes_with_orderBy (host := Fixtures.plain_host)
           "departmentId" true older Fixtures.data).
  vm_compute. reflexivity.
Defined.

Lemma orderBy_is_stable_and_idempotent_witness :
  QueryBuilder.where_
    (fun item => strict_eq (prop item "departmentId") (VNum 1))
    (QueryBuilder.orderBy (host := Fixtures.plain_host) "departmentId" true
       Fixtures.data)
  = [Fixtures.Alice; Fixtures.Charlie]
  /\ QueryBuilder.orderBy (host := Fixtures.plain_host) "departmentId" true
       (QueryBuilder.orderBy (host := Fixtures.plain_host) "departmentId"
          true Fixtures.data)
     = QueryBuilder.orderBy (host := Fixtures.plain_host) "departmentId"
         true Fixtures.data.
Proof.
  destruct (orderBy_is_stable_and_idempotent (host := Fixtures.plain_host)
              "departmentId" true Fixtures.data) as [Hstable Hagain].
  - vm_compute. reflexivity.
  - split; [|exact Hagain].
    rewrite (Hstable (VNum 1)). reflexivity.
Defined.
